(** * swm::Matrix — a shallow embedding of Matrix.hpp and Vector.hpp

    [Matrix<T, Cols, Rows>] keeps its elements in a [std::vector<T>] and
    addresses the element at [(col, row)] as [data[col + row * Cols]].  The
    dimensions are template parameters, so here they index the type; the
    vector is a [list T] whose length is *not* tied to the dimensions by the
    type, exactly as in the C++ class.

    [std::vector::operator[]] and iterator dereference perform no bounds
    check: touching an element past the end is undefined.  Every operation
    that indexes the storage is therefore written in the [option] monad and
    yields [None] as soon as it would leave the vector.

    The loop counters and the accessor's arguments are [int] in the source;
    they are modelled by [nat], i.e. on the non-negative range that the loops
    [for (int i = 0; i < N; ++i)] actually visit, for dimensions that an
    [int] can count.

    Access control ([private], [friend]) is a compile-time matter and is not
    modelled: each definition follows the statements of the function body it
    embeds.

    The two scalar operators are not embedded.  The lambda that
    [operator* (const Matrix&, const U& scalar)] hands to [std::transform] is
    [[](const T& in) { return in * scalar; }]: its capture list is empty, so
    [scalar] is not in scope in its body, the operator is ill-formed, and
    neither it nor the scalar-first operator that returns [matrix * scalar]
    has a behaviour to embed. *)

From stdpp Require Import base option list numbers strings.

Module swm.

(** ** Element types

    The templates ask of an element type only what they use: construction
    from the literals [0] and [1], and the binary operators.  The result type
    of a mixed operation, [decltype(std::declval<T>() * std::declval<U>())],
    is the last index of the operator classes. *)

Class Zero (T : Type) := zero : T.
Class One (T : Type) := one : T.
Class Add (T U Return : Type) := add : T → U → Return.
Class Sub (T U Return : Type) := sub : T → U → Return.
Class Mul (T U Return : Type) := mul : T → U → Return.

#[global] Instance Z_Zero : Zero Z := 0%Z.
#[global] Instance Z_One : One Z := 1%Z.
#[global] Instance Z_Add : Add Z Z Z := Z.add.
#[global] Instance Z_Sub : Sub Z Z Z := Z.sub.
#[global] Instance Z_Mul : Mul Z Z Z := Z.mul.

(** ** std::vector and the algorithms used on it *)

Section vector.
Context {A B C : Type}.

(** [v[i]] and [*it] as an rvalue. *)
Definition load (v : list A) (i : nat) : option A := v !! i.

(** [v[i] = x] and [*it = x]. *)
Definition store (v : list A) (i : nat) (x : A) : option (list A) :=
  if decide (i < length v) then Some (<[i := x]> v) else None.

(** [for (int i = lo; i < lo + n; ++i) body], threading the state that the
    body mutates. *)
Fixpoint for_range {St : Type} (lo n : nat) (body : nat → St → option St) (s : St)
    : option St :=
  match n with
  | 0 => Some s
  | S n' => s' ← body lo s; for_range (S lo) n' body s'
  end.

(** [std::transform(first, last, d_first, f)]: one write per source
    element, starting at the beginning of the destination. *)
Fixpoint transform (f : A → B) (src : list A) (dst : list B) : option (list B) :=
  match src with
  | [] => Some dst
  | x :: src' =>
      match dst with
      | [] => None
      | _ :: dst' => cons (f x) <$> transform f src' dst'
      end
  end.

(** [std::transform(first1, last1, first2, d_first, f)]. *)
Fixpoint transform2 (f : A → B → C) (src1 : list A) (src2 : list B) (dst : list C)
    : option (list C) :=
  match src1 with
  | [] => Some dst
  | x :: src1' =>
      match src2, dst with
      | y :: src2', _ :: dst' => cons (f x y) <$> transform2 f src1' src2' dst'
      | _, _ => None
      end
  end.

(** The loop [for (; thisRow != thisRowEnd; ++thisRow, ++slicedRow)
    *slicedRow = *thisRow;] of [slice]; [dist] is [thisRowEnd - thisRow]
    and both iterators are offsets from [begin()]. *)
Fixpoint copy_row (dist : nat) (src : list A) (thisRow : nat)
    (dst : list A) (slicedRow : nat) : option (list A) :=
  match dist with
  | 0 => Some dst
  | S dist' =>
      x ← load src thisRow;
      dst' ← store dst slicedRow x;
      copy_row dist' src (S thisRow) dst' (S slicedRow)
  end.
End vector.

(** ** The class template *)

Record Matrix (T : Type) (Cols Rows : nat) : Type := mkMatrix { data : list T }.
Arguments mkMatrix {T Cols Rows} data.
Arguments data {T Cols Rows} m.

Section Matrix.
Context {T : Type} `{!Zero T}.

(** [Matrix()]: [data(Cols * Rows, 0)]. *)
Definition Matrix_default {Cols Rows : nat} : Matrix T Cols Rows :=
  mkMatrix (replicate (Cols * Rows) zero).

(** [Matrix(std::initializer_list<T> il)]: [data(il)] followed by
    [data.resize(Cols * Rows)], which drops the tail of a longer list and
    appends value-initialised elements to a shorter one. *)
Definition Matrix_init {Cols Rows : nat} (il : list T) : Matrix T Cols Rows :=
  mkMatrix (resize (Cols * Rows) zero il).

(** [operator()(int col, int row) const]. *)
Definition get {Cols Rows : nat} (m : Matrix T Cols Rows) (col row : nat) : option T :=
  load (data m) (col + row * Cols).

(** Assignment through [T& operator()(int col, int row)]. *)
Definition set {Cols Rows : nat} (m : Matrix T Cols Rows) (col row : nat) (x : T)
    : option (Matrix T Cols Rows) :=
  mkMatrix <$> store (data m) (col + row * Cols) x.

Definition cols {Cols Rows : nat} (_ : Matrix T Cols Rows) : nat := Cols.
Definition rows {Cols Rows : nat} (_ : Matrix T Cols Rows) : nat := Rows.

(** [identity<Size>()]. *)
Definition identity `{!One T} (Size : nat) : option (Matrix T Size Size) :=
  for_range 0 Size (λ i id, set id i i one) Matrix_default.

(** [transpose(m)]. *)
Definition transpose {Cols Rows : nat} (m : Matrix T Cols Rows)
    : option (Matrix T Rows Cols) :=
  for_range 0 Rows (λ i t,
    for_range 0 Cols (λ j t,
      x ← get m j i;
      set t i j x) t) Matrix_default.

(** [slice<NewCols, NewRows>()].  The branch for an unchanged column count
    calls [sliced.data.insert(sliced.data.begin(), thisBegin, end)], which
    puts the copied range in front of the elements [sliced] already has. *)
Definition slice {Cols Rows : nat} (NewCols NewRows : nat) (this : Matrix T Cols Rows)
    : option (Matrix T NewCols NewRows) :=
  let sliced : Matrix T NewCols NewRows := Matrix_default in
  let lesserRows := if Rows <? NewRows then Rows else NewRows in
  if negb (Cols =? NewCols) then
    let lesserCols := if Cols <? NewCols then Cols else NewCols in
    for_range 0 lesserRows (λ i (sliced : Matrix T NewCols NewRows),
      let thisRowBegin := i * Cols in
      let thisRowEnd := thisRowBegin + lesserCols in
      let slicedRowBegin := i * NewCols in
      mkMatrix <$>
        copy_row (thisRowEnd - thisRowBegin) (data this) thisRowBegin
          (data sliced) slicedRowBegin)
      sliced
  else
    let end_ := lesserRows * Cols in
    if decide (end_ ≤ length (data this))
    then Some (mkMatrix (take end_ (data this) ++ data sliced))
    else None.
End Matrix.

(** [operator Matrix<U, Cols, Rows>()], with [static_cast<U>] as [cast]. *)
Definition convert {T U : Type} `{!Zero U} {Cols Rows : nat} (cast : T → U)
    (this : Matrix T Cols Rows) : option (Matrix U Cols Rows) :=
  mkMatrix <$> transform cast (data this) (data (Matrix_default (Cols:=Cols) (Rows:=Rows))).

Section arithmetic.
Context {T U Return : Type} `{!Zero Return}.

(** [operator+ (const Matrix<U, Cols, Rows>& other)]. *)
Definition mat_add `{!Add T U Return} {Cols Rows : nat}
    (this : Matrix T Cols Rows) (other : Matrix U Cols Rows)
    : option (Matrix Return Cols Rows) :=
  let newMatrix : Matrix Return Cols Rows := Matrix_default in
  mkMatrix <$> transform2 (λ lhs rhs, add lhs rhs)
                 (data this) (data other) (data newMatrix).

(** [operator- (const Matrix<U, Cols, Rows>& other)]. *)
Definition mat_sub `{!Sub T U Return} {Cols Rows : nat}
    (this : Matrix T Cols Rows) (other : Matrix U Cols Rows)
    : option (Matrix Return Cols Rows) :=
  let newMatrix : Matrix Return Cols Rows := Matrix_default in
  mkMatrix <$> transform2 (λ lhs rhs, sub lhs rhs)
                 (data this) (data other) (data newMatrix).

(** [operator* (const Matrix<U, OtherCols, Cols>& other)]; the statement
    [newMatrix(j, i) += this->operator()(k, i) * other(j, k)] reads the
    accumulator, adds the product and writes it back. *)
Definition mat_mul `{!Mul T U Return, !Add Return Return Return}
    {Cols Rows OtherCols : nat}
    (this : Matrix T Cols Rows) (other : Matrix U OtherCols Cols)
    : option (Matrix Return OtherCols Rows) :=
  let newMatrix : Matrix Return OtherCols Rows := Matrix_default in
  for_range 0 (rows newMatrix) (λ i newMatrix,
    for_range 0 (cols newMatrix) (λ j newMatrix,
      for_range 0 Cols (λ k newMatrix,
        a ← get this k i;
        b ← get other j k;
        acc ← get newMatrix j i;
        set newMatrix j i (add acc (mul a b))) newMatrix) newMatrix) newMatrix.

End arithmetic.

(** Vector.hpp *)
Definition Vector2 (T : Type) : Type := Matrix T 1 2.
Definition Vector3 (T : Type) : Type := Matrix T 1 3.
Definition Vector4 (T : Type) : Type := Matrix T 1 4.

(** ** Specification vocabulary

    [wf m] is the class invariant: the storage holds one element per position.
    [entry m col row] is the element at [(col, row)] as a total function, for
    use in statements; it agrees with [get] wherever [get] is defined. *)

Definition wf {T : Type} {Cols Rows : nat} (m : Matrix T Cols Rows) : Prop :=
  length (data m) = Cols * Rows.

Definition entry {T : Type} `{!Zero T} {Cols Rows : nat}
    (m : Matrix T Cols Rows) (col row : nat) : T :=
  default zero (get m col row).

(** The sum that [operator*] forms for one result element: it starts from the
    zero of the result type and adds the terms for [k = 0, 1, ..., n - 1] in
    that order. *)
Definition accumulate {Return : Type} `{!Zero Return, !Add Return Return Return}
    (n : nat) (term : nat → Return) : Return :=
  foldl (λ acc k, add acc (term k)) zero (seq 0 n).

(** [truncate m] keeps the first [Cols * Rows] elements of the storage, the
    only ones a position [(col, row)] with [col < Cols], [row < Rows] can
    name. *)
Definition truncate {T : Type} {Cols Rows : nat} (m : Matrix T Cols Rows)
    : Matrix T Cols Rows :=
  mkMatrix (take (Cols * Rows) (data m)).

(** ** The accessor on arbitrary [int] arguments

    [data[col + row * Cols]] is evaluated in [std::size_t], taken as 64 bits
    wide: [row] is converted for the product with [Cols] and [col] for the
    sum, a negative [int] becoming [2^64] plus its value, and the product and
    the sum wrap modulo [2^64].  [get] and [set] above are these accessors on
    the arguments that the loops of the library pass. *)

Definition size_t_modulus : Z := 2 ^ 64.

Definition to_size_t (x : Z) : Z := (x `mod` size_t_modulus)%Z.

Definition linear_index (Cols : nat) (col row : Z) : nat :=
  Z.to_nat ((to_size_t col
             + (to_size_t row * Z.of_nat Cols) `mod` size_t_modulus)
            `mod` size_t_modulus)%Z.

Definition get_int {T : Type} {Cols Rows : nat} (m : Matrix T Cols Rows)
    (col row : Z) : option T :=
  load (data m) (linear_index Cols col row).

Definition set_int {T : Type} {Cols Rows : nat} (m : Matrix T Cols Rows)
    (col row : Z) (x : T) : option (Matrix T Cols Rows) :=
  mkMatrix <$> store (data m) (linear_index Cols col row) x.

(** ** printMatrix (compiled under [MATRIX_PRINT])

    [std::cout] is the text written so far; [show x] is the text that
    [std::cout << x] writes for an element [x]. *)

Definition newline : string := String (Ascii.ascii_of_nat 10) EmptyString.

Definition printMatrix {T : Type} {Cols Rows : nat} (show : T → string)
    (mat : Matrix T Cols Rows) (rowPrefix : string) (cout : string) : option string :=
  cout ← for_range 0 Rows (λ i cout,
    let cout := cout +:+ rowPrefix in
    cout ← for_range 0 Cols (λ j cout,
      x ← get mat j i;
      Some ((cout +:+ show x) +:+ " ")) cout;
    Some (cout +:+ newline)) cout;
  Some (cout +:+ newline).

(** The text of row [i]: the prefix, every element of the row followed by a
    space, and a line end. *)
Definition row_text {T : Type} `{!Zero T} {Cols Rows : nat} (show : T → string)
    (mat : Matrix T Cols Rows) (rowPrefix : string) (i : nat) : string :=
  rowPrefix +:+
  foldr (λ j rest, show (entry mat j i) +:+ " " +:+ rest) newline (seq 0 Cols).

(** The text of the matrix: its rows from the first to the last, and an empty
    line. *)
Definition matrix_text {T : Type} `{!Zero T} {Cols Rows : nat} (show : T → string)
    (mat : Matrix T Cols Rows) (rowPrefix : string) : string :=
  foldr (λ i rest, row_text show mat rowPrefix i +:+ rest) newline (seq 0 Rows).

(** * Properties *)

(** ** Vectors, loops and algorithms *)

Section vector_facts.
Context {A B C : Type}.
Implicit Types (v src dst : list A).

Lemma store_Some v i x : i < length v → store v i x = Some (<[i := x]> v).
Proof. intros Hi. unfold store. by rewrite decide_True. Qed.

Lemma store_inv v i x v' :
  store v i x = Some v' → i < length v ∧ v' = <[i := x]> v.
Proof. unfold store. case_decide; naive_solver. Qed.

Lemma load_Some v i : i < length v → is_Some (load v i).
Proof. apply lookup_lt_is_Some_2. Qed.

Lemma for_range_inv {St : Type} (Inv : nat → St → Prop) body n :
  ∀ lo s,
    Inv lo s →
    (∀ k t, lo ≤ k < lo + n → Inv k t → ∃ t', body k t = Some t' ∧ Inv (S k) t') →
    ∃ s', for_range lo n body s = Some s' ∧ Inv (lo + n) s'.
Proof.
  induction n as [|n IH]; intros lo s Hs Hstep; simpl.
  - exists s. by rewrite Nat.add_0_r.
  - destruct (Hstep lo s) as (t & -> & Ht); [lia | done |]. simpl.
    destruct (IH (S lo) t Ht) as (s' & Hrun & Hs').
    { intros k u Hk. apply Hstep. lia. }
    exists s'. by rewrite Nat.add_succ_r.
Qed.

Lemma transform_Some (f : A → B) src (dst : list B) :
  length src ≤ length dst →
  transform f src dst = Some ((f <$> src) ++ drop (length src) dst).
Proof.
  revert dst. induction src as [|x src IH]; intros [|y dst] Hlen; simpl in *;
    try done; try lia.
  rewrite IH by lia. done.
Qed.

Lemma transform2_Some (f : A → B → C) src1 (src2 : list B) (dst : list C) :
  length src1 ≤ length src2 → length src1 ≤ length dst →
  transform2 f src1 src2 dst = Some (zip_with f src1 src2 ++ drop (length src1) dst).
Proof.
  revert src2 dst. induction src1 as [|x src1 IH]; intros [|y src2] [|z dst] H1 H2;
    simpl in *; try done; try lia.
  rewrite IH by lia. done.
Qed.

Lemma copy_row_spec dist : ∀ src thisRow dst slicedRow,
  thisRow + dist ≤ length src → slicedRow + dist ≤ length dst →
  ∃ dst', copy_row dist src thisRow dst slicedRow = Some dst' ∧
    length dst' = length dst ∧
    (∀ k, k < dist → dst' !! (slicedRow + k) = src !! (thisRow + k)) ∧
    (∀ j, j < slicedRow ∨ slicedRow + dist ≤ j → dst' !! j = dst !! j).
Proof.
  induction dist as [|dist IH]; intros src thisRow dst slicedRow Hs Hd; simpl.
  - exists dst. split_and!; [done | done | intros; lia | done].
  - destruct (load_Some src thisRow) as [x Hx]; [lia|]. rewrite Hx. simpl.
    rewrite store_Some by lia. simpl.
    destruct (IH src (S thisRow) (<[slicedRow := x]> dst) (S slicedRow))
      as (dst' & -> & Hlen & Hin & Hout); [lia | rewrite length_insert; lia |].
    exists dst'. rewrite length_insert in Hlen. split_and!; [done | done | |].
    + intros [|k] Hk.
      * rewrite Nat.add_0_r, Hout by lia. rewrite Nat.add_0_r.
        rewrite list_lookup_insert_eq by lia. done.
      * rewrite <- !Nat.add_succ_comm. apply Hin. lia.
    + intros j Hj. rewrite Hout by lia. apply list_lookup_insert_ne. lia.
Qed.
End vector_facts.

(** ** Row-major indexing *)

Lemma index_lt (Cols Rows col row : nat) :
  col < Cols → row < Rows → col + row * Cols < Cols * Rows.
Proof. intros Hc Hr. nia. Qed.

Lemma index_inj (Cols col row col' row' : nat) :
  col < Cols → col' < Cols → col + row * Cols = col' + row' * Cols →
  col = col' ∧ row = row'.
Proof.
  intros Hc Hc' Heq.
  assert (row = row') as ->; [nia | lia].
Qed.

Lemma index_split (Cols Rows i : nat) :
  i < Cols * Rows → ∃ col row, col < Cols ∧ row < Rows ∧ i = col + row * Cols.
Proof.
  intros Hi. assert (Cols ≠ 0) as HC by (intros ->; lia).
  exists (i `mod` Cols), (i `div` Cols). split_and!.
  - by apply Nat.mod_upper_bound.
  - apply Nat.Div0.div_lt_upper_bound. lia.
  - rewrite (Nat.div_mod_eq i Cols) at 1. lia.
Qed.

Section matrix_facts.
Context {T : Type} {Cols Rows : nat}.
Implicit Types (m : Matrix T Cols Rows).

Lemma get_is_Some m col row :
  wf m → col < Cols → row < Rows → is_Some (get m col row).
Proof.
  intros Hm Hc Hr. apply lookup_lt_is_Some_2. rewrite Hm. by apply index_lt.
Qed.

Lemma get_entry `{!Zero T} m col row :
  wf m → col < Cols → row < Rows → get m col row = Some (entry m col row).
Proof.
  intros Hm Hc Hr. unfold entry.
  by destruct (get_is_Some m col row Hm Hc Hr) as [x ->].
Qed.

Lemma set_spec m col row x :
  wf m → col < Cols → row < Rows →
  ∃ m', set m col row x = Some m' ∧ wf m' ∧
    get m' col row = Some x ∧
    ∀ col' row', col' < Cols → (col', row') ≠ (col, row) →
      get m' col' row' = get m col' row'.
Proof.
  intros Hm Hc Hr. unfold set, get, load.
  pose proof (index_lt Cols Rows col row Hc Hr) as Hi.
  rewrite store_Some by (by rewrite Hm). simpl. eexists. split; [done|].
  unfold wf; simpl. rewrite length_insert. split_and!; [done | |].
  - apply list_lookup_insert_eq. by rewrite Hm.
  - intros col' row' Hc' Hne. apply list_lookup_insert_ne.
    intros Heq. apply index_inj in Heq as [-> ->]; done.
Qed.

Lemma matrix_ext m1 m2 :
  wf m1 → wf m2 →
  (∀ col row, col < Cols → row < Rows → get m1 col row = get m2 col row) →
  m1 = m2.
Proof.
  destruct m1 as [d1], m2 as [d2]. unfold wf, get, load; simpl.
  intros H1 H2 Heq. f_equal. apply list_eq. intros i.
  destruct (decide (i < Cols * Rows)) as [Hi|Hi].
  - destruct (index_split Cols Rows i Hi) as (c & r & Hc & Hr & ->). by apply Heq.
  - rewrite !lookup_ge_None_2; [done | lia | lia].
Qed.
End matrix_facts.

(** ** Constructors, identity and transpose *)

Section construction_facts.
Context {T : Type} `{!Zero T}.

Lemma Matrix_default_wf Cols Rows : wf (Matrix_default (T:=T) (Cols:=Cols) (Rows:=Rows)).
Proof. unfold wf; simpl. apply length_replicate. Qed.

Lemma Matrix_default_get Cols Rows col row :
  col < Cols → row < Rows →
  get (Matrix_default (T:=T) (Cols:=Cols) (Rows:=Rows)) col row = Some zero.
Proof.
  intros Hc Hr. unfold get, load; simpl.
  apply lookup_replicate_2. by apply index_lt.
Qed.

Lemma Matrix_init_wf Cols Rows (il : list T) :
  wf (Matrix_init (Cols:=Cols) (Rows:=Rows) il).
Proof. unfold wf; simpl. apply length_resize. Qed.

Lemma identity_spec `{!One T} (Size : nat) :
  ∃ id, identity (T:=T) Size = Some id ∧ wf id ∧
    ∀ i j, i < Size → j < Size →
      get id i j = Some (if decide (i = j) then one else zero).
Proof.
  unfold identity.
  destruct (for_range_inv
    (λ k (id : Matrix T Size Size), wf id ∧
       ∀ i j, i < Size → j < Size →
         get id i j = Some (if decide (i = j ∧ i < k) then one else zero))
    (λ i id, set id i i one) Size 0 Matrix_default) as (id & Hrun & Hwf & Hid).
  - split; [apply Matrix_default_wf|]. intros i j Hi Hj.
    rewrite Matrix_default_get by done. rewrite decide_False; [done | lia].
  - intros k t Hk [Hwf Ht].
    destruct (set_spec t k k one Hwf) as (t' & -> & Hwf' & Hkk & Hframe); [lia..|].
    exists t'. split_and!; [done..|]. intros i j Hi Hj.
    destruct (decide ((i, j) = (k, k))) as [[= -> ->]|Hne].
    + rewrite Hkk, decide_True; [done | lia].
    + rewrite Hframe, Ht by done.
      destruct (decide (i = j ∧ i < k)) as [H1|H1],
        (decide (i = j ∧ i < S k)) as [H2|H2]; try done; exfalso.
      * apply H2. lia.
      * apply H1. destruct H2 as [-> H2]. split; [done|].
        destruct (decide (j = k)) as [->|]; [done | lia].
  - exists id. split_and!; [done..|]. intros i j Hi Hj. rewrite Hid by done.
    destruct (decide (i = j ∧ i < 0 + Size)) as [H1|H1],
      (decide (i = j)) as [H2|H2]; try done; exfalso.
    + apply H2, H1.
    + apply H1. split; [done | lia].
Qed.

Lemma transpose_spec {Cols Rows : nat} (m : Matrix T Cols Rows) :
  wf m →
  ∃ t, transpose m = Some t ∧ wf t ∧
    ∀ i j, i < Rows → j < Cols → get t i j = get m j i.
Proof.
  intros Hm. unfold transpose.
  destruct (for_range_inv
    (λ i (t : Matrix T Rows Cols), wf t ∧
       ∀ i' j, i' < i → i' < Rows → j < Cols → get t i' j = get m j i')
    (λ i t, for_range 0 Cols (λ j t, x ← get m j i; set t i j x) t)
    Rows 0 Matrix_default) as (t & Hrun & Hwf & Ht).
  - split; [apply Matrix_default_wf | intros; lia].
  - intros i t Hi [Hwf Ht].
    destruct (for_range_inv
      (λ j (u : Matrix T Rows Cols), wf u ∧
         (∀ i' j', i' < i → i' < Rows → j' < Cols → get u i' j' = get m j' i') ∧
         (∀ j', j' < j → get u i j' = get m j' i))
      (λ j t, x ← get m j i; set t i j x) Cols 0 t) as (u & Hrun & Hwfu & Hold & Hnew).
    + split_and!; [done | done | intros; lia].
    + intros j u Hj (Hwfu & Hold & Hnew).
      destruct (get_is_Some m j i Hm) as [x Hx]; [lia..|]. rewrite Hx; simpl.
      destruct (set_spec u i j x Hwfu) as (u' & -> & Hwfu' & Hij & Hframe); [lia..|].
      exists u'. split_and!; [done..| |].
      * intros i' j' Hi' Hi'' Hj'. rewrite Hframe; [by apply Hold | lia | ].
        intros [= -> ->]. lia.
      * intros j' Hj'. destruct (decide (j' = j)) as [->|Hne]; [congruence|].
        rewrite Hframe; [apply Hnew; lia | lia | congruence].
    + exists u. split_and!; [done..|]. intros i' j Hi' Hi'' Hj.
      destruct (decide (i' = i)) as [->|Hne]; [by apply Hnew | apply Hold; lia].
  - exists t. split_and!; [done..|]. intros i j Hi Hj. by apply Ht.
Qed.
End construction_facts.

(** ** Slicing *)

Section slice_facts.
Context {T : Type} `{!Zero T} {Cols Rows : nat}.

Lemma slice_run (NewCols NewRows : nat) (this : Matrix T Cols Rows) :
  wf this →
  ∃ s, slice NewCols NewRows this = Some s ∧
    length (data s) =
      NewCols * NewRows + (if decide (Cols = NewCols) then Rows `min` NewRows * Cols else 0) ∧
    ∀ c r, c < NewCols → r < NewRows →
      get s c r =
        if decide (c < Cols `min` NewCols ∧ r < Rows `min` NewRows)
        then get this c r else Some zero.
Proof.
  intros Hm. unfold slice.
  assert ((if Rows <? NewRows then Rows else NewRows) = Rows `min` NewRows) as ->.
  { destruct (Nat.ltb_spec Rows NewRows); lia. }
  destruct (Nat.eqb_spec Cols NewCols) as [<-|Hne]; simpl.
  - (* one insertion in front of the default-constructed storage *)
    rewrite decide_True by (rewrite Hm; nia).
    eexists. split; [done|]. simpl. split.
    + rewrite decide_True by done.
      rewrite length_app, length_take, length_replicate, Hm. nia.
    + intros c r Hc Hr. unfold get, load; simpl.
      assert (length (take (Rows `min` NewRows * Cols) (data this))
              = Rows `min` NewRows * Cols) as Htake.
      { rewrite length_take, Hm. nia. }
      destruct (decide (c < Cols `min` Cols ∧ r < Rows `min` NewRows)) as [[_ Hin]|Hout].
      * rewrite lookup_app_l by (rewrite Htake; nia).
        apply lookup_take_lt. nia.
      * assert (Rows `min` NewRows ≤ r) as Hge by lia.
        rewrite lookup_app_r by (rewrite Htake; nia).
        apply lookup_replicate_2. rewrite Htake. nia.
  - (* row by row *)
    assert ((if Cols <? NewCols then Cols else NewCols) = Cols `min` NewCols) as ->.
    { destruct (Nat.ltb_spec Cols NewCols); lia. }
    destruct (for_range_inv
      (λ i (s : Matrix T NewCols NewRows), wf s ∧
         ∀ c r, c < NewCols → r < NewRows →
           get s c r = if decide (c < Cols `min` NewCols ∧ r < i)
                       then get this c r else Some zero)
      (λ i (sliced : Matrix T NewCols NewRows),
         mkMatrix <$> copy_row (i * Cols + Cols `min` NewCols - i * Cols)
                        (data this) (i * Cols) (data sliced) (i * NewCols))
      (Rows `min` NewRows) 0 Matrix_default) as (s & Hrun & Hwf & Hs).
    + split; [apply Matrix_default_wf|]. intros c r Hc Hr.
      rewrite Matrix_default_get by done. rewrite decide_False; [done | lia].
    + intros i s Hi [Hwf Hs].
      replace (i * Cols + Cols `min` NewCols - i * Cols)
        with (Cols `min` NewCols) by lia.
      destruct (copy_row_spec (Cols `min` NewCols) (data this) (i * Cols)
                  (data s) (i * NewCols)) as (d & -> & Hlen & Hin & Hout).
      { rewrite Hm. nia. }
      { rewrite Hwf. nia. }
      simpl. eexists. split; [done|]. split; [unfold wf; simpl; congruence|].
      intros c r Hc Hr. unfold get at 1, load; simpl.
      destruct (decide (r = i ∧ c < Cols `min` NewCols)) as [[-> Hc']|Hother].
      * replace (c + i * NewCols) with (i * NewCols + c) by lia.
        rewrite Hin by done. rewrite decide_True by lia.
        unfold get, load. f_equal. lia.
      * rewrite Hout; cycle 1.
        { destruct (Nat.lt_trichotomy r i) as [Hlt|[->|Hgt]]; [left; nia | right; lia | right; nia]. }
        specialize (Hs c r Hc Hr). unfold get at 1, load in Hs.
        rewrite Hs.
        destruct (decide (c < Cols `min` NewCols ∧ r < i)) as [H1|H1],
          (decide (c < Cols `min` NewCols ∧ r < S i)) as [H2|H2]; try done; exfalso.
        -- apply H2. lia.
        -- apply Hother. lia.
    + exists s. split; [done|]. split.
      * rewrite decide_False by done. rewrite Hwf. lia.
      * intros c r Hc Hr. by apply Hs.
Qed.
End slice_facts.

(** ** Conversion, addition and subtraction *)

Section transform_facts.
Context {A B C : Type}.

Lemma transform_full (f : A → B) (src : list A) (dst : list B) :
  length src = length dst → transform f src dst = Some (f <$> src).
Proof.
  intros Hlen. rewrite transform_Some by lia.
  rewrite drop_ge by lia. by rewrite app_nil_r.
Qed.

Lemma transform2_full (f : A → B → C) (src1 : list A) (src2 : list B) (dst : list C) :
  length src1 = length src2 → length src1 = length dst →
  transform2 f src1 src2 dst = Some (zip_with f src1 src2).
Proof.
  intros H1 H2. rewrite transform2_Some by lia.
  rewrite drop_ge by lia. by rewrite app_nil_r.
Qed.
End transform_facts.

Section elementwise_facts.
Context {T U Return : Type} `{!Zero Return} {Cols Rows : nat}.
Implicit Types (this matrix : Matrix T Cols Rows) (other : Matrix U Cols Rows).

Lemma convert_spec (cast : T → Return) this :
  wf this →
  ∃ n, convert cast this = Some n ∧ wf n ∧ data n = cast <$> data this.
Proof.
  intros Hm. unfold convert.
  rewrite transform_full by (simpl; rewrite length_replicate; exact Hm).
  eexists. split_and!; [done | | done].
  unfold wf; simpl. by rewrite length_fmap.
Qed.

Lemma mat_add_spec `{!Add T U Return} this other :
  wf this → wf other →
  ∃ n, mat_add this other = Some n ∧ wf n ∧
    data n = zip_with add (data this) (data other).
Proof.
  intros H1 H2. unfold mat_add.
  rewrite transform2_full by (simpl; rewrite ?length_replicate; congruence).
  eexists. split_and!; [done | | done].
  unfold wf; simpl. rewrite length_zip_with. unfold wf in *. lia.
Qed.

Lemma mat_sub_spec `{!Sub T U Return} this other :
  wf this → wf other →
  ∃ n, mat_sub this other = Some n ∧ wf n ∧
    data n = zip_with sub (data this) (data other).
Proof.
  intros H1 H2. unfold mat_sub.
  rewrite transform2_full by (simpl; rewrite ?length_replicate; congruence).
  eexists. split_and!; [done | | done].
  unfold wf; simpl. rewrite length_zip_with. unfold wf in *. lia.
Qed.

End elementwise_facts.

(** ** Matrix product *)

Section multiplication_facts.
Context {T U Return : Type}.
Context `{!Zero T, !Zero U, !Zero Return, !Mul T U Return, !Add Return Return Return}.
Context {Cols Rows OtherCols : nat}.

Lemma accumulate_S (n : nat) (term : nat → Return) :
  accumulate (S n) term = add (accumulate n term) (term n).
Proof. unfold accumulate. by rewrite seq_S, foldl_app. Qed.

Lemma mat_mul_run (this : Matrix T Cols Rows) (other : Matrix U OtherCols Cols) :
  wf this → wf other →
  ∃ n, mat_mul this other = Some n ∧ wf n ∧
    ∀ j i, j < OtherCols → i < Rows →
      get n j i =
        Some (accumulate Cols (λ k, mul (entry this k i) (entry other j k))).
Proof.
  intros Hthis Hother. unfold mat_mul, rows, cols.
  set (dot := λ j i, accumulate Cols (λ k, mul (entry this k i) (entry other j k))).
  set (inner := λ i j k (newMatrix : Matrix Return OtherCols Rows),
         a ← get this k i; b ← get other j k; acc ← get newMatrix j i;
         set newMatrix j i (add acc (mul a b))).
  set (middle := λ i j (newMatrix : Matrix Return OtherCols Rows),
         for_range 0 Cols (inner i j) newMatrix).
  destruct (for_range_inv
    (λ i (n : Matrix Return OtherCols Rows), wf n ∧
       ∀ c r, c < OtherCols → r < Rows →
         get n c r = Some (if decide (r < i) then dot c r else zero))
    (λ i n, for_range 0 OtherCols (middle i) n) Rows 0 Matrix_default)
    as (n & Hrun & Hwf & Hn).
  - split; [apply Matrix_default_wf|]. intros c r Hc Hr.
    rewrite Matrix_default_get by done. by rewrite decide_False by lia.
  - intros i n Hi [Hwf Hn].
    destruct (for_range_inv
      (λ j (n : Matrix Return OtherCols Rows), wf n ∧
         ∀ c r, c < OtherCols → r < Rows →
           get n c r =
             Some (if decide (r < i ∨ (r = i ∧ c < j)) then dot c r else zero))
      (middle i) OtherCols 0 n) as (n' & Hrun & Hwf' & Hn').
    + split; [done|]. intros c r Hc Hr. rewrite Hn by done.
      destruct (decide (r < i)) as [H1|H1],
        (decide (r < i ∨ r = i ∧ c < 0)) as [H2|H2]; try done; exfalso.
      * apply H2. by left.
      * apply H1. lia.
    + intros j m Hj [Hwfm Hm].
      destruct (for_range_inv
        (λ k (n : Matrix Return OtherCols Rows), wf n ∧
           get n j i =
             Some (accumulate k (λ k, mul (entry this k i) (entry other j k))) ∧
           ∀ c r, c < OtherCols → r < Rows → (c, r) ≠ (j, i) →
             get n c r = get m c r)
        (inner i j) Cols 0 m) as (m' & Hrun & Hwfm' & Hacc & Hrest).
      * split_and!; [done | | done]. rewrite Hm by lia.
        rewrite decide_False by lia. done.
      * intros k p Hk (Hwfp & Hacc & Hrest). unfold inner.
        rewrite (get_entry this k i), (get_entry other j k) by (done || lia).
        simpl. rewrite Hacc. simpl.
        destruct (set_spec p j i
          (add (accumulate k (λ k, mul (entry this k i) (entry other j k)))
               (mul (entry this k i) (entry other j k))) Hwfp)
          as (p' & -> & Hwfp' & Hji & Hframe); [lia..|].
        exists p'. split_and!; [done | done | |].
        -- by rewrite accumulate_S.
        -- intros c r Hc Hr Hne. rewrite Hframe by done. by apply Hrest.
      * exists m'. split; [exact Hrun|]. split; [done|]. intros c r Hc Hr.
        destruct (decide ((c, r) = (j, i))) as [[= -> ->]|Hne].
        -- rewrite Hacc. rewrite decide_True by lia. done.
        -- rewrite Hrest, Hm by done.
           destruct (decide (r < i ∨ r = i ∧ c < j)) as [H1|H1],
             (decide (r < i ∨ r = i ∧ c < S j)) as [H2|H2]; try done; exfalso.
           ++ apply H2. lia.
           ++ apply H1. destruct H2 as [?|[-> ?]]; [by left|]. right.
              split; [done|]. destruct (decide (c = j)) as [->|]; [done | lia].
    + exists n'. split; [exact Hrun|]. split; [done|]. intros c r Hc Hr.
      rewrite Hn' by done.
      destruct (decide (r < i ∨ r = i ∧ c < 0 + OtherCols)) as [H1|H1],
        (decide (r < S i)) as [H2|H2]; try done; exfalso.
      * apply H2. lia.
      * apply H1. lia.
  - exists n. split; [exact Hrun|]. split; [done|]. intros j i Hj Hi.
    rewrite Hn by done. by rewrite decide_True by lia.
Qed.
End multiplication_facts.

(** ** The class invariant across the operations

    Every operation other than [slice] with an unchanged column count returns
    well-formed storage from well-formed operands. *)

Section invariant_facts.
Context {T : Type} `{!Zero T} {Cols Rows : nat}.

Lemma slice_storage_length (NewCols NewRows : nat) (this : Matrix T Cols Rows) :
  wf this →
  ∃ s, slice NewCols NewRows this = Some s ∧
    length (data s) =
      NewCols * NewRows +
      (if decide (Cols = NewCols) then Rows `min` NewRows * Cols else 0).
Proof.
  intros Hm. destruct (slice_run NewCols NewRows this Hm) as (s & Hs & Hlen & _).
  by exists s.
Qed.

Lemma slice_wf_changed_columns (NewCols NewRows : nat) (this : Matrix T Cols Rows) :
  Cols ≠ NewCols → wf this →
  ∃ s, slice NewCols NewRows this = Some s ∧ wf s.
Proof.
  intros Hne Hm.
  destruct (slice_run NewCols NewRows this Hm) as (s & Hs & Hlen & _).
  exists s. split; [done|]. unfold wf. rewrite Hlen, decide_False by done. lia.
Qed.
End invariant_facts.

(** X1 — from well-formed operands, the constructors, [identity],
    [transpose], conversion, addition, subtraction and the product all
    return storage of exactly [Cols * Rows] elements. *)
Lemma results_are_well_formed :
  (∀ (T : Type) `(!Zero T) Cols Rows,
     wf (Matrix_default (T:=T) (Cols:=Cols) (Rows:=Rows))) ∧
  (∀ (T : Type) `(!Zero T) Cols Rows (il : list T),
     wf (Matrix_init (Cols:=Cols) (Rows:=Rows) il)) ∧
  (∀ (T : Type) `(!Zero T, !One T) Size,
     ∃ id, identity (T:=T) Size = Some id ∧ wf id) ∧
  (∀ (T : Type) `(!Zero T) Cols Rows (m : Matrix T Cols Rows),
     wf m → ∃ t, transpose m = Some t ∧ wf t) ∧
  (∀ (T U : Type) `(!Zero U) Cols Rows (cast : T → U) (m : Matrix T Cols Rows),
     wf m → ∃ n, convert cast m = Some n ∧ wf n) ∧
  (∀ (T U Return : Type) `(!Zero Return, !Add T U Return) Cols Rows
     (a : Matrix T Cols Rows) (b : Matrix U Cols Rows),
     wf a → wf b → ∃ n, mat_add a b = Some n ∧ wf n) ∧
  (∀ (T U Return : Type) `(!Zero Return, !Sub T U Return) Cols Rows
     (a : Matrix T Cols Rows) (b : Matrix U Cols Rows),
     wf a → wf b → ∃ n, mat_sub a b = Some n ∧ wf n) ∧
  (∀ (T U Return : Type)
     `(!Zero T, !Zero U, !Zero Return, !Mul T U Return, !Add Return Return Return)
     Cols Rows OtherCols (a : Matrix T Cols Rows) (b : Matrix U OtherCols Cols),
     wf a → wf b → ∃ n, mat_mul a b = Some n ∧ wf n).
Proof.
  split_and!.
  - intros. apply Matrix_default_wf.
  - intros. apply Matrix_init_wf.
  - intros T ?? Size. destruct (identity_spec (T:=T) Size) as (id & ? & ? & _). eauto.
  - intros T ? Cols Rows m Hm. destruct (transpose_spec m Hm) as (t & ? & ? & _). eauto.
  - intros T U ? Cols Rows cast m Hm.
    destruct (convert_spec cast m Hm) as (n & ? & ? & _). eauto.
  - intros T U R ?? Cols Rows a b Ha Hb.
    destruct (mat_add_spec a b Ha Hb) as (n & ? & ? & _). eauto.
  - intros T U R ?? Cols Rows a b Ha Hb.
    destruct (mat_sub_spec a b Ha Hb) as (n & ? & ? & _). eauto.
  - intros T U R ????? Cols Rows OtherCols a b Ha Hb.
    destruct (mat_mul_run a b Ha Hb) as (n & ? & ? & _). eauto.
Qed.

(** Storage that [slice] has lengthened is not a valid source for the
    [std::transform]-based operators: the destination they allocate is
    shorter than the range they read. *)
Example add_after_slice_leaves_the_destination :
  (s ← slice 1 1 (Matrix_init (Cols:=1) (Rows:=1) [5%Z]);
   mat_add (Return:=Z) s (Matrix_init (Cols:=1) (Rows:=1) [1%Z])) = None.
Proof. reflexivity. Qed.

(** * The claims of the specification *)

(** C1 — the storage of a matrix has exactly [Cols * Rows] elements after
    every operation.  [slice] does not keep this when the column count is
    unchanged: its [insert] puts the copied elements in front of the
    [Cols * Rows] zeros that the result already holds.  Slicing the 1×1 matrix
    [5] to 1×1 returns the two-element storage [5, 0]. *)
Theorem slice_unchanged_columns_grows_storage :
  wf (Matrix_init (Cols:=1) (Rows:=1) [5%Z]) ∧
  slice 1 1 (Matrix_init (Cols:=1) (Rows:=1) [5%Z]) = Some (mkMatrix [5%Z; 0%Z]) ∧
  ¬ wf (mkMatrix (Cols:=1) (Rows:=1) [5%Z; 0%Z]).
Proof. split_and!; [reflexivity | reflexivity | unfold wf; simpl; lia]. Qed.

Section claims.
Context {T : Type} `{!Zero T} {Cols Rows : nat}.
Implicit Types (A m : Matrix T Cols Rows).

(** C2 — [slice<NewCols, NewRows>] of a well-formed Cols×Rows matrix returns
    a NewCols×NewRows matrix whose element at [(c, r)] is the source's
    element at [(c, r)] inside the overlap [c < min Cols NewCols],
    [r < min Rows NewRows], and zero outside it; slicing to the same
    dimensions returns the same element at every position. *)
Theorem slice_copies_overlap A :
  wf A →
  (∀ NewCols NewRows, ∃ s,
      slice NewCols NewRows A = Some s ∧
      cols s = NewCols ∧ rows s = NewRows ∧
      ∀ c r, c < NewCols → r < NewRows →
        get s c r =
          Some (if decide (c < Cols `min` NewCols ∧ r < Rows `min` NewRows)
                then entry A c r else zero)) ∧
  (∃ s, slice Cols Rows A = Some s ∧
      ∀ c r, c < Cols → r < Rows → get s c r = get A c r).
Proof.
  intros HA. split.
  - intros NewCols NewRows.
    destruct (slice_run NewCols NewRows A HA) as (s & Hrun & _ & Hs).
    exists s. split_and!; [done..|]. intros c r Hc Hr. rewrite Hs by done.
    case_decide as Hin; [|done]. apply get_entry; [done | lia | lia].
  - destruct (slice_run Cols Rows A HA) as (s & Hrun & _ & Hs).
    exists s. split; [done|]. intros c r Hc Hr. rewrite Hs by done.
    rewrite decide_True; [done | lia].
Qed.

(** C5 — [transpose] of a well-formed Cols×Rows matrix returns a Rows×Cols
    matrix [t] with [t(i, j) = A(j, i)], and transposing [t] gives back [A]
    itself, again Cols×Rows.  The argument is a const reference read through
    the const accessor: the embedding takes [A] as a value and returns only
    the new matrix. *)
Theorem transpose_involutive A :
  wf A →
  ∃ t : Matrix T Rows Cols,
    transpose A = Some t ∧
    cols t = Rows ∧ rows t = Cols ∧
    (∀ i j, i < Rows → j < Cols → get t i j = get A j i) ∧
    ∃ tt : Matrix T Cols Rows,
      transpose t = Some tt ∧ cols tt = Cols ∧ rows tt = Rows ∧ tt = A ∧
      ∀ c r, c < Cols → r < Rows → get tt c r = get A c r.
Proof.
  intros HA.
  destruct (transpose_spec A HA) as (t & Ht & Hwft & Hget).
  destruct (transpose_spec t Hwft) as (tt & Htt & Hwftt & Hget').
  assert (∀ c r, c < Cols → r < Rows → get tt c r = get A c r) as Heq.
  { intros c r Hc Hr. rewrite Hget', Hget by done. done. }
  exists t. split_and!; [done..|]. exists tt. split_and!; [done.. | | done].
  by apply matrix_ext.
Qed.

(** C9 — an assignment through the mutable accessor at an in-range
    [(col, row)] replaces the element at linear index [col + row * Cols] and
    nothing else: the storage keeps its length, every other index keeps its
    element, and so does every other position.  On a well-formed matrix the
    assignment is defined. *)
Theorem set_changes_one_element m col row x :
  col < Cols → row < Rows →
  (wf m → is_Some (set m col row x)) ∧
  ∀ m', set m col row x = Some m' →
    data m' !! (col + row * Cols) = Some x ∧
    length (data m') = length (data m) ∧
    (∀ i, i ≠ col + row * Cols → data m' !! i = data m !! i) ∧
    (∀ col' row', col' < Cols → (col', row') ≠ (col, row) →
       get m' col' row' = get m col' row').
Proof.
  intros Hc Hr. split.
  - intros Hm. destruct (set_spec m col row x Hm Hc Hr) as (m' & -> & _). by eexists.
  - intros m'. unfold set.
    destruct (store (data m) (col + row * Cols) x) as [d|] eqn:Hst; [|done].
    intros [= <-]. apply store_inv in Hst as [Hlt ->]. simpl.
    split_and!.
    + by apply list_lookup_insert_eq.
    + apply length_insert.
    + intros i Hi. by apply list_lookup_insert_ne.
    + intros col' row' Hc' Hne. unfold get, load; simpl.
      apply list_lookup_insert_ne. intros Heq.
      apply index_inj in Heq as [-> ->]; done.
Qed.

(** C10 — a literal sequence longer than [Cols * Rows] is cut to its first
    [Cols * Rows] values: the storage is that prefix, in order. *)
Theorem Matrix_init_truncates (il : list T) :
  Cols * Rows < length il →
  data (Matrix_init (Cols:=Cols) (Rows:=Rows) il) = take (Cols * Rows) il ∧
  length (data (Matrix_init (Cols:=Cols) (Rows:=Rows) il)) = Cols * Rows ∧
  ∀ i, i < Cols * Rows →
    data (Matrix_init (Cols:=Cols) (Rows:=Rows) il) !! i = il !! i.
Proof.
  intros Hlen. simpl. split_and!.
  - apply resize_le. lia.
  - apply length_resize.
  - intros i Hi. rewrite resize_le by lia. by apply lookup_take_lt.
Qed.
End claims.

(** Witnesses on integer matrices. *)

Lemma slice_copies_overlap_witness :
  wf (Matrix_init (Cols:=3) (Rows:=3) [1; 2; 3; 4; 5; 6; 7; 8; 9]%Z) ∧
  ∃ s, slice 2 4 (Matrix_init (Cols:=3) (Rows:=3) [1; 2; 3; 4; 5; 6; 7; 8; 9]%Z) = Some s ∧
       get s 1 2 = Some 8%Z ∧ get s 1 3 = Some 0%Z.
Proof.
  assert (wf (Matrix_init (Cols:=3) (Rows:=3) [1; 2; 3; 4; 5; 6; 7; 8; 9]%Z)) as Hwf
    by reflexivity.
  split; [exact Hwf|].
  destruct (proj1 (slice_copies_overlap _ Hwf) 2 4) as (s & Hs & _ & _ & Hget).
  exists s. split; [exact Hs|]. split.
  - rewrite (Hget 1 2) by lia. reflexivity.
  - rewrite (Hget 1 3) by lia. reflexivity.
Defined.

Section product_claims.
Context {T U Return : Type}.
Context `{!Zero T, !Zero U, !Zero Return, !Mul T U Return, !Add Return Return Return}.
Context {Cols Rows OtherCols : nat}.

(** C3 — the product of a well-formed T-valued Cols×Rows matrix [lhs] and a
    well-formed U-valued OtherCols×Cols matrix [rhs] is an OtherCols×Rows
    matrix of the result type whose element at [(j, i)] is the sum of
    [lhs(k, i) * rhs(j, k)] over [k = 0 .. Cols - 1], accumulated from the
    zero of the result type. *)
Theorem mat_mul_computes_dot_products
    (lhs : Matrix T Cols Rows) (rhs : Matrix U OtherCols Cols) :
  wf lhs → wf rhs →
  ∃ n : Matrix Return OtherCols Rows,
    mat_mul lhs rhs = Some n ∧
    cols n = OtherCols ∧ rows n = Rows ∧
    ∀ j i, j < OtherCols → i < Rows →
      get n j i =
        Some (foldl (λ acc k, add acc (mul (entry lhs k i) (entry rhs j k)))
                zero (seq 0 Cols)).
Proof.
  intros Hl Hr. destruct (mat_mul_run lhs rhs Hl Hr) as (n & Hrun & _ & Hn).
  exists n. split_and!; [done..|]. intros j i Hj Hi. by rewrite Hn.
Qed.
End product_claims.

(** C6 — a literal sequence of at most [Cols * Rows] values fills the storage
    in order from linear index 0 and the remaining positions are zero, so the
    element at [(col, row)] is the value at index [col + row * Cols] of the
    sequence when there is one and zero otherwise; the 2×2 matrix built from
    [1, 2, 3, 4] has 1 at (0,0), 2 at (1,0), 3 at (0,1) and 4 at (1,1). *)
Theorem Matrix_init_row_major :
  (∀ (T : Type) `(!Zero T) (Cols Rows : nat) (il : list T),
     length il ≤ Cols * Rows →
     data (Matrix_init (Cols:=Cols) (Rows:=Rows) il)
       = il ++ replicate (Cols * Rows - length il) zero ∧
     ∀ col row, col < Cols → row < Rows →
       get (Matrix_init (Cols:=Cols) (Rows:=Rows) il) col row
         = Some (default zero (il !! (col + row * Cols)))) ∧
  get (Matrix_init [1; 2; 3; 4]%Z : Matrix Z 2 2) 0 0 = Some 1%Z ∧
  get (Matrix_init [1; 2; 3; 4]%Z : Matrix Z 2 2) 1 0 = Some 2%Z ∧
  get (Matrix_init [1; 2; 3; 4]%Z : Matrix Z 2 2) 0 1 = Some 3%Z ∧
  get (Matrix_init [1; 2; 3; 4]%Z : Matrix Z 2 2) 1 1 = Some 4%Z.
Proof.
  split; [|split_and!; reflexivity].
  intros T ? Cols Rows il Hlen. split.
  - simpl. by rewrite resize_ge by done.
  - intros col row Hc Hr. unfold get, load; simpl.
    pose proof (index_lt Cols Rows col row Hc Hr) as Hi.
    rewrite resize_ge by done.
    destruct (decide (col + row * Cols < length il)) as [Hin|Hout].
    + rewrite lookup_app_l by done.
      destruct (lookup_lt_is_Some_2 il _ Hin) as [x ->]. done.
    + rewrite lookup_app_r by lia.
      rewrite (lookup_ge_None_2 il) by lia. simpl.
      apply lookup_replicate_2. lia.
Qed.

Lemma Matrix_init_row_major_witness :
  data (Matrix_init (Cols:=2) (Rows:=2) [7; 9]%Z) = [7; 9; 0; 0]%Z ∧
  get (Matrix_init (Cols:=2) (Rows:=2) [7; 9]%Z) 1 0 = Some 9%Z ∧
  get (Matrix_init (Cols:=2) (Rows:=2) [7; 9]%Z) 1 1 = Some 0%Z.
Proof.
  destruct (proj1 Matrix_init_row_major Z _ 2 2 [7; 9]%Z) as [Hdata Hget];
    [simpl; lia|].
  split; [exact Hdata|]. split.
  - apply (Hget 1 0); lia.
  - apply (Hget 1 1); lia.
Defined.

Section exact_arithmetic.
Context {T : Type} `{!Zero T, !One T, !Add T T T, !Mul T T T}.
Hypothesis add_0_l : ∀ x : T, add zero x = x.
Hypothesis add_0_r : ∀ x : T, add x zero = x.

Lemma accumulate_single (n j : nat) (term : nat → T) (x : T) :
  (∀ k, k < n → term k = if decide (k = j) then x else zero) →
  accumulate n term = if decide (j < n) then x else zero.
Proof.
  induction n as [|n IH]; intros Hterm.
  - by rewrite decide_False by lia.
  - rewrite accumulate_S, IH by (intros; apply Hterm; lia).
    rewrite Hterm by lia.
    destruct (decide (j < n)), (decide (n = j)), (decide (j < S n));
      try lia; auto.
Qed.

Hypothesis mul_1_l : ∀ x : T, mul one x = x.
Hypothesis mul_1_r : ∀ x : T, mul x one = x.
Hypothesis mul_0_l : ∀ x : T, mul zero x = zero.
Hypothesis mul_0_r : ∀ x : T, mul x zero = zero.

Lemma mat_mul_identity (N : nat) (A id : Matrix T N N) :
  wf A → identity N = Some id →
  mat_mul A id = Some A ∧ mat_mul id A = Some A.
Proof.
  intros HA Hid. destruct (identity_spec N) as (id' & Hid' & Hwf & Hget).
  assert (id' = id) as -> by congruence.
  assert (∀ i j, i < N → j < N →
            entry id i j = if decide (i = j) then one else zero) as Hentry.
  { intros i j Hi Hj. unfold entry. by rewrite Hget. }
  split.
  - destruct (mat_mul_run A id HA Hwf) as (n & Hrun & Hwfn & Hn).
    rewrite Hrun. f_equal. apply matrix_ext; [done..|].
    intros j i Hj Hi. rewrite Hn, (get_entry A j i) by done. f_equal.
    rewrite (accumulate_single N j _ (entry A j i)).
    + by rewrite decide_True.
    + intros k Hk. rewrite Hentry by done.
      destruct (decide (j = k)) as [Hjk|Hjk], (decide (k = j)) as [Hkj|Hkj];
        try congruence; subst; auto.
  - destruct (mat_mul_run id A Hwf HA) as (n & Hrun & Hwfn & Hn).
    rewrite Hrun. f_equal. apply matrix_ext; [done..|].
    intros j i Hj Hi. rewrite Hn, (get_entry A j i) by done. f_equal.
    rewrite (accumulate_single N i _ (entry A j i)).
    + by rewrite decide_True.
    + intros k Hk. rewrite Hentry by done.
      destruct (decide (k = i)) as [->|]; auto.
Qed.
End exact_arithmetic.

(** C4 — [identity<N>()] is the N×N matrix with one at every [(i, i)] and
    zero elsewhere; and in an element type whose zero and one are neutral for
    addition and multiplication and whose zero annihilates products, as with
    exact integers, [A * identity<N>()] and [identity<N>() * A] are [A] for
    every well-formed N×N matrix [A]. *)
Theorem identity_is_neutral :
  (∀ (T : Type) `(!Zero T, !One T) (N : nat),
     ∃ id : Matrix T N N,
       identity N = Some id ∧ cols id = N ∧ rows id = N ∧
       ∀ i j, i < N → j < N →
         get id i j = Some (if decide (i = j) then one else zero)) ∧
  (∀ (T : Type) `(!Zero T, !One T, !Add T T T, !Mul T T T),
     (∀ x : T, add zero x = x) → (∀ x : T, add x zero = x) →
     (∀ x : T, mul one x = x) → (∀ x : T, mul x one = x) →
     (∀ x : T, mul zero x = zero) → (∀ x : T, mul x zero = zero) →
     ∀ (N : nat) (A : Matrix T N N),
       wf A →
       ∃ id : Matrix T N N,
         identity N = Some id ∧
         mat_mul A id = Some A ∧
         mat_mul id A = Some A).
Proof.
  split.
  - intros T ?? N. destruct (identity_spec (T:=T) N) as (id & Hid & _ & Hget).
    exists id. split_and!; done.
  - intros T ???? H1 H2 H3 H4 H5 H6 N A HA.
    destruct (identity_spec (T:=T) N) as (id & Hid & _).
    destruct (mat_mul_identity H1 H2 H3 H4 H5 H6 N A id HA Hid) as [Hr Hl].
    exists id. split_and!; done.
Qed.

Section pairwise.
Context {T U Return : Type}.
Context `{!Zero T, !Zero U, !Zero Return, !Add T U Return, !Sub T U Return}.
Context {Cols Rows : nat}.

End pairwise.


Lemma mat_mul_computes_dot_products_witness :
  ∃ n : Matrix Z 3 2,
    mat_mul (Matrix_init [1; 2; 3; 4]%Z : Matrix Z 2 2)
            (Matrix_init [1; 2; 3; 4; 5; 6]%Z : Matrix Z 3 2) = Some n ∧
    get n 2 1 = Some 33%Z.
Proof.
  destruct (mat_mul_computes_dot_products (Return:=Z)
              (Matrix_init [1; 2; 3; 4]%Z : Matrix Z 2 2)
              (Matrix_init [1; 2; 3; 4; 5; 6]%Z : Matrix Z 3 2))
    as (n & Hn & _ & _ & Hget); [reflexivity | reflexivity |].
  exists n. split; [exact Hn|].
  rewrite (Hget 2 1) by lia. reflexivity.
Defined.

Lemma identity_is_neutral_witness :
  ∃ id : Matrix Z 2 2,
    identity 2 = Some id ∧
    mat_mul (Matrix_init [1; 2; 3; 4]%Z : Matrix Z 2 2) id
      = Some (Matrix_init [1; 2; 3; 4]%Z) ∧
    mat_mul id (Matrix_init [1; 2; 3; 4]%Z : Matrix Z 2 2)
      = Some (Matrix_init [1; 2; 3; 4]%Z).
Proof.
  apply (proj2 identity_is_neutral Z _ _ _ _
           Z.add_0_l Z.add_0_r Z.mul_1_l Z.mul_1_r Z.mul_0_l Z.mul_0_r
           2 (Matrix_init [1; 2; 3; 4]%Z)).
  reflexivity.
Defined.

Lemma transpose_involutive_witness :
  ∃ t : Matrix Z 3 2,
    transpose (Matrix_init [1; 2; 3; 4; 5; 6]%Z : Matrix Z 2 3) = Some t ∧
    get t 2 1 = Some 6%Z ∧
    transpose t = Some (Matrix_init [1; 2; 3; 4; 5; 6]%Z).
Proof.
  destruct (transpose_involutive (Matrix_init [1; 2; 3; 4; 5; 6]%Z : Matrix Z 2 3))
    as (t & Ht & _ & _ & Hget & tt & Htt & _ & _ & -> & _); [reflexivity|].
  exists t. split; [exact Ht|]. split; [|exact Htt].
  rewrite (Hget 2 1) by lia. reflexivity.
Defined.


Lemma set_changes_one_element_witness :
  ∃ m' : Matrix Z 2 2,
    set (Matrix_init [1; 2; 3; 4]%Z : Matrix Z 2 2) 1 0 9%Z = Some m' ∧
    data m' !! 1 = Some 9%Z ∧
    data m' !! 2 = Some 3%Z.
Proof.
  destruct (set_changes_one_element (Matrix_init [1; 2; 3; 4]%Z : Matrix Z 2 2)
              1 0 9%Z) as [Hdef Hframe]; [lia | lia |].
  destruct Hdef as [m' Hm']; [reflexivity|].
  destruct (Hframe m' Hm') as (Hnew & _ & Hother & _).
  exists m'. split; [exact Hm'|]. split; [exact Hnew|].
  rewrite (Hother 2) by (simpl; lia). reflexivity.
Defined.

Lemma Matrix_init_truncates_witness :
  data (Matrix_init (Cols:=2) (Rows:=2) [1; 2; 3; 4; 5; 6]%Z) = [1; 2; 3; 4]%Z.
Proof.
  destruct (Matrix_init_truncates (Cols:=2) (Rows:=2) [1; 2; 3; 4; 5; 6]%Z)
    as (Hdata & _ & _); [simpl; lia|].
  exact Hdata.
Defined.

(** * Further properties of the operators *)

(** ** Sums *)

Section accumulate_facts.
Context {T : Type} `{!Zero T, !Add T T T, !Mul T T T}.

Lemma accumulate_ext (n : nat) (f g : nat → T) :
  (∀ k, k < n → f k = g k) → accumulate n f = accumulate n g.
Proof.
  induction n as [|n IH]; intros Hfg; [done|].
  rewrite !accumulate_S, IH, Hfg by (intros; try apply Hfg; lia). done.
Qed.

Hypothesis add_0_l : ∀ x : T, add zero x = x.
Hypothesis add_comm : ∀ x y : T, add x y = add y x.
Hypothesis add_assoc : ∀ x y z : T, add x (add y z) = add (add x y) z.

Lemma accumulate_zero (n : nat) : accumulate n (λ _, zero : T) = zero.
Proof.
  induction n as [|n IH]; [done|]. by rewrite accumulate_S, IH, add_0_l.
Qed.

Lemma accumulate_add (n : nat) (f g : nat → T) :
  accumulate n (λ k, add (f k) (g k)) = add (accumulate n f) (accumulate n g).
Proof.
  induction n as [|n IH]; [by rewrite add_0_l|].
  rewrite !accumulate_S, IH.
  rewrite <- !add_assoc. f_equal.
  rewrite !add_assoc. f_equal. apply add_comm.
Qed.

Lemma accumulate_swap (n m : nat) (f : nat → nat → T) :
  accumulate n (λ i, accumulate m (λ j, f i j))
  = accumulate m (λ j, accumulate n (λ i, f i j)).
Proof.
  induction n as [|n IH].
  - by rewrite accumulate_zero.
  - rewrite accumulate_S, IH, <- accumulate_add.
    apply accumulate_ext. intros j _. by rewrite accumulate_S.
Qed.

Hypothesis mul_0_l : ∀ x : T, mul zero x = zero.
Hypothesis mul_0_r : ∀ x : T, mul x zero = zero.
Hypothesis mul_add_l : ∀ x y z : T, mul x (add y z) = add (mul x y) (mul x z).
Hypothesis mul_add_r : ∀ x y z : T, mul (add x y) z = add (mul x z) (mul y z).

Lemma accumulate_mul_l (n : nat) (x : T) (f : nat → T) :
  mul x (accumulate n f) = accumulate n (λ k, mul x (f k)).
Proof.
  induction n as [|n IH]; [apply mul_0_r|].
  by rewrite !accumulate_S, mul_add_l, IH.
Qed.

Lemma accumulate_mul_r (n : nat) (x : T) (f : nat → T) :
  mul (accumulate n f) x = accumulate n (λ k, mul (f k) x).
Proof.
  induction n as [|n IH]; [apply mul_0_l|].
  by rewrite !accumulate_S, mul_add_r, IH.
Qed.
End accumulate_facts.

(** ** Algebra of the matrix product *)

Section product_entries.
Context {T U Return : Type}.
Context `{!Zero T, !Zero U, !Zero Return, !Mul T U Return, !Add Return Return Return}.
Context {Cols Rows OtherCols : nat}.

Lemma mat_mul_entry (this : Matrix T Cols Rows) (other : Matrix U OtherCols Cols) :
  wf this → wf other →
  ∃ n, mat_mul this other = Some n ∧ wf n ∧
    ∀ j i, j < OtherCols → i < Rows →
      entry n j i = accumulate Cols (λ k, mul (entry this k i) (entry other j k)).
Proof.
  intros H1 H2. destruct (mat_mul_run this other H1 H2) as (n & Hn & Hwf & Hget).
  exists n. split_and!; [done..|]. intros j i Hj Hi. unfold entry at 1.
  by rewrite Hget.
Qed.
End product_entries.

Section elementwise_entries.
Context {T U Return : Type} `{!Zero T, !Zero U, !Zero Return} {Cols Rows : nat}.

Lemma mat_add_get `{!Add T U Return} (A : Matrix T Cols Rows) (B : Matrix U Cols Rows) :
  wf A → wf B →
  ∃ S : Matrix Return Cols Rows, mat_add A B = Some S ∧ wf S ∧
    ∀ c r, c < Cols → r < Rows →
      get S c r = Some (add (entry A c r) (entry B c r)) ∧
      entry S c r = add (entry A c r) (entry B c r).
Proof.
  intros HA HB. destruct (mat_add_spec A B HA HB) as (S & HS & HwfS & HdS).
  exists S. split_and!; [done..|]. intros c r Hc Hr.
  pose proof (get_entry A c r HA Hc Hr) as Ha.
  pose proof (get_entry B c r HB Hc Hr) as Hb.
  assert (get S c r = Some (add (entry A c r) (entry B c r))) as HgS.
  { unfold get, load in *. by rewrite HdS, lookup_zip_with, Ha, Hb. }
  split; [done|]. unfold entry at 1. by rewrite HgS.
Qed.

Lemma mat_sub_get `{!Sub T U Return} (A : Matrix T Cols Rows) (B : Matrix U Cols Rows) :
  wf A → wf B →
  ∃ D : Matrix Return Cols Rows, mat_sub A B = Some D ∧ wf D ∧
    ∀ c r, c < Cols → r < Rows →
      get D c r = Some (sub (entry A c r) (entry B c r)) ∧
      entry D c r = sub (entry A c r) (entry B c r).
Proof.
  intros HA HB. destruct (mat_sub_spec A B HA HB) as (D & HD & HwfD & HdD).
  exists D. split_and!; [done..|]. intros c r Hc Hr.
  pose proof (get_entry A c r HA Hc Hr) as Ha.
  pose proof (get_entry B c r HB Hc Hr) as Hb.
  assert (get D c r = Some (sub (entry A c r) (entry B c r))) as HgD.
  { unfold get, load in *. by rewrite HdD, lookup_zip_with, Ha, Hb. }
  split; [done|]. unfold entry at 1. by rewrite HgD.
Qed.
End elementwise_entries.

Section product_algebra.
Context {T : Type} `{!Zero T, !One T, !Add T T T, !Mul T T T}.

Hypothesis add_0_l : ∀ x : T, add zero x = x.
Hypothesis add_0_r : ∀ x : T, add x zero = x.

Section neutral.
Hypothesis mul_1_l : ∀ x : T, mul one x = x.
Hypothesis mul_1_r : ∀ x : T, mul x one = x.
Hypothesis mul_0_l : ∀ x : T, mul zero x = zero.
Hypothesis mul_0_r : ∀ x : T, mul x zero = zero.

(** X2 — [identity<Cols>()] is a right unit and [identity<Rows>()] a left unit of
    the product for matrices of any shape, column vectors included. *)
Theorem mat_mul_identity_any_shape {Cols Rows : nat} (A : Matrix T Cols Rows) :
  wf A →
  ∃ (idc : Matrix T Cols Cols) (idr : Matrix T Rows Rows),
    identity Cols = Some idc ∧ identity Rows = Some idr ∧
    mat_mul A idc = Some A ∧ mat_mul idr A = Some A.
Proof.
  intros HA.
  destruct (identity_spec (T:=T) Cols) as (idc & Hidc & Hwfc & Hgetc).
  destruct (identity_spec (T:=T) Rows) as (idr & Hidr & Hwfr & Hgetr).
  exists idc, idr. split_and!; [done | done | |].
  - destruct (mat_mul_run A idc HA Hwfc) as (n & -> & Hwfn & Hn).
    f_equal. apply matrix_ext; [done..|].
    intros j i Hj Hi. rewrite Hn, (get_entry A j i) by done. f_equal.
    rewrite (accumulate_single add_0_l add_0_r Cols j _ (entry A j i)).
    + by rewrite decide_True.
    + intros k Hk. unfold entry at 2. rewrite Hgetc by done. simpl.
      destruct (decide (j = k)) as [Hjk|Hjk], (decide (k = j)) as [Hkj|Hkj];
        try congruence; subst; auto.
  - destruct (mat_mul_run idr A Hwfr HA) as (n & -> & Hwfn & Hn).
    f_equal. apply matrix_ext; [done..|].
    intros j i Hj Hi. rewrite Hn, (get_entry A j i) by done. f_equal.
    rewrite (accumulate_single add_0_l add_0_r Rows i _ (entry A j i)).
    + by rewrite decide_True.
    + intros k Hk. unfold entry at 1. rewrite Hgetr by done. simpl.
      destruct (decide (k = i)) as [->|]; auto.
Qed.

(** X3 — A product with the all-zero matrix is the all-zero matrix. *)
Theorem mat_mul_zero {Cols Rows OtherCols : nat} (A : Matrix T Cols Rows)
    (B : Matrix T OtherCols Cols) :
  wf A → wf B →
  mat_mul A (Matrix_default : Matrix T OtherCols Cols) = Some Matrix_default ∧
  mat_mul (Matrix_default : Matrix T Cols Rows) B = Some Matrix_default.
Proof.
  intros HA HB. split.
  - destruct (mat_mul_run A (Matrix_default : Matrix T OtherCols Cols) HA
                (Matrix_default_wf _ _))
      as (n & -> & Hwfn & Hn).
    f_equal. apply matrix_ext; [done | apply Matrix_default_wf |].
    intros j i Hj Hi. rewrite Hn, Matrix_default_get by done. f_equal.
    rewrite <- (accumulate_zero add_0_l Cols). apply accumulate_ext.
    intros k Hk. unfold entry at 2. rewrite Matrix_default_get by done. apply mul_0_r.
  - destruct (mat_mul_run (Matrix_default : Matrix T Cols Rows) B
                (Matrix_default_wf _ _) HB)
      as (n & -> & Hwfn & Hn).
    f_equal. apply matrix_ext; [done | apply Matrix_default_wf |].
    intros j i Hj Hi. rewrite Hn, Matrix_default_get by done. f_equal.
    rewrite <- (accumulate_zero add_0_l Cols). apply accumulate_ext.
    intros k Hk. unfold entry at 1. rewrite Matrix_default_get by done. apply mul_0_l.
Qed.
End neutral.

Hypothesis add_comm : ∀ x y : T, add x y = add y x.
Hypothesis add_assoc : ∀ x y z : T, add x (add y z) = add (add x y) z.
Hypothesis mul_0_l : ∀ x : T, mul zero x = zero.
Hypothesis mul_0_r : ∀ x : T, mul x zero = zero.
Hypothesis mul_add_l : ∀ x y z : T, mul x (add y z) = add (mul x y) (mul x z).
Hypothesis mul_add_r : ∀ x y z : T, mul (add x y) z = add (mul x z) (mul y z).

Section associativity.
Hypothesis mul_assoc : ∀ x y z : T, mul x (mul y z) = mul (mul x y) z.

(** X4 — [(A * B) * C] and [A * (B * C)] are the same matrix. *)
Theorem mat_mul_assoc {C1 C2 C3 R : nat}
    (A : Matrix T C1 R) (B : Matrix T C2 C1) (C : Matrix T C3 C2) :
  wf A → wf B → wf C →
  ∃ (AB : Matrix T C2 R) (BC : Matrix T C3 C1) (ABC : Matrix T C3 R),
    mat_mul A B = Some AB ∧ mat_mul B C = Some BC ∧
    mat_mul AB C = Some ABC ∧ mat_mul A BC = Some ABC.
Proof.
  intros HA HB HC.
  destruct (mat_mul_entry A B HA HB) as (AB & HAB & HwfAB & HeAB).
  destruct (mat_mul_entry B C HB HC) as (BC & HBC & HwfBC & HeBC).
  destruct (mat_mul_run AB C HwfAB HC) as (L & HL & HwfL & HgL).
  destruct (mat_mul_run A BC HA HwfBC) as (Rr & HR & HwfR & HgR).
  exists AB, BC, L. split_and!; [done..|]. rewrite HR. f_equal.
  apply matrix_ext; [done..|]. intros l i Hl Hi.
  rewrite HgL, HgR by done. f_equal.
  transitivity (accumulate C1 (λ k, accumulate C2 (λ j,
                  mul (mul (entry A k i) (entry B j k)) (entry C l j)))).
  - apply accumulate_ext. intros k Hk. rewrite HeBC by done.
    rewrite (accumulate_mul_l mul_0_r mul_add_l).
    apply accumulate_ext. intros j Hj. apply mul_assoc.
  - rewrite (accumulate_swap add_0_l add_comm add_assoc).
    apply accumulate_ext. intros j Hj. rewrite HeAB by done.
    by rewrite (accumulate_mul_r mul_0_l mul_add_r).
Qed.
End associativity.

(** X5 — The product distributes over addition on both sides. *)
Theorem mat_mul_add_distr {Cols Rows OtherCols : nat}
    (A A' : Matrix T Cols Rows) (B B' : Matrix T OtherCols Cols) :
  wf A → wf A' → wf B → wf B' →
  (∃ S AB AB' P, mat_add B B' = Some S ∧ mat_mul A B = Some AB ∧
     mat_mul A B' = Some AB' ∧ mat_mul A S = Some P ∧ mat_add AB AB' = Some P) ∧
  (∃ S AB A'B P, mat_add A A' = Some S ∧ mat_mul A B = Some AB ∧
     mat_mul A' B = Some A'B ∧ mat_mul S B = Some P ∧ mat_add AB A'B = Some P).
Proof.
  intros HA HA' HB HB'.
  destruct (mat_mul_entry A B HA HB) as (AB & HAB & HwfAB & HeAB).
  split.
  - destruct (mat_add_get (Return:=T) B B' HB HB') as (S & HS & HwfS & HgS).
    destruct (mat_mul_entry A B' HA HB') as (AB' & HAB' & HwfAB' & HeAB').
    destruct (mat_mul_run A S HA HwfS) as (P & HP & HwfP & HgP).
    destruct (mat_add_get (Return:=T) AB AB' HwfAB HwfAB') as (Q & HQ & HwfQ & HgQ).
    exists S, AB, AB', P. split_and!; [done..|]. rewrite HQ. f_equal.
    apply matrix_ext; [done..|]. intros j i Hj Hi.
    destruct (HgQ j i Hj Hi) as [-> _]. rewrite HgP by done. f_equal.
    rewrite HeAB, HeAB', <- (accumulate_add add_0_l add_comm add_assoc) by done.
    apply accumulate_ext. intros k Hk.
    destruct (HgS j k Hj Hk) as [_ ->]. by rewrite mul_add_l.
  - destruct (mat_add_get (Return:=T) A A' HA HA') as (S & HS & HwfS & HgS).
    destruct (mat_mul_entry A' B HA' HB) as (A'B & HA'B & HwfA'B & HeA'B).
    destruct (mat_mul_run S B HwfS HB) as (P & HP & HwfP & HgP).
    destruct (mat_add_get (Return:=T) AB A'B HwfAB HwfA'B) as (Q & HQ & HwfQ & HgQ).
    exists S, AB, A'B, P. split_and!; [done..|]. rewrite HQ. f_equal.
    apply matrix_ext; [done..|]. intros j i Hj Hi.
    destruct (HgQ j i Hj Hi) as [-> _]. rewrite HgP by done. f_equal.
    rewrite HeAB, HeA'B, <- (accumulate_add add_0_l add_comm add_assoc) by done.
    apply accumulate_ext. intros k Hk.
    destruct (HgS k i Hk Hi) as [_ ->]. by rewrite mul_add_r.
Qed.
End product_algebra.

(** ** Transposition and the other operators *)

Section transpose_algebra.
Context {T : Type} `{!Zero T, !One T, !Add T T T, !Mul T T T}.

Lemma transpose_entry {Cols Rows : nat} (m : Matrix T Cols Rows) :
  wf m →
  ∃ t, transpose m = Some t ∧ wf t ∧
    ∀ i j, i < Rows → j < Cols → entry t i j = entry m j i.
Proof.
  intros Hm. destruct (transpose_spec m Hm) as (t & Ht & Hwf & Hget).
  exists t. split_and!; [done..|]. intros i j Hi Hj. unfold entry.
  by rewrite Hget.
Qed.

(** X6 — The identity matrix is its own transpose. *)
Theorem transpose_identity (N : nat) :
  ∃ id : Matrix T N N, identity N = Some id ∧ transpose id = Some id.
Proof.
  destruct (identity_spec (T:=T) N) as (id & Hid & Hwf & Hget).
  destruct (transpose_spec id Hwf) as (t & Ht & Hwft & Hgt).
  exists id. split; [done|]. rewrite Ht. f_equal. apply matrix_ext; [done..|].
  intros c r Hc Hr. rewrite Hgt, !Hget by done. f_equal.
  destruct (decide (r = c)) as [H1|H1], (decide (c = r)) as [H2|H2];
    done || congruence.
Qed.

(** X7 — Transposition distributes over addition. *)
Theorem transpose_add {Cols Rows : nat} (A B : Matrix T Cols Rows) :
  wf A → wf B →
  ∃ S tA tB tS,
    mat_add A B = Some S ∧ transpose A = Some tA ∧ transpose B = Some tB ∧
    transpose S = Some tS ∧ mat_add tA tB = Some tS.
Proof.
  intros HA HB.
  destruct (mat_add_get (Return:=T) A B HA HB) as (S & HS & HwfS & HgS).
  destruct (transpose_entry A HA) as (tA & HtA & HwftA & HeA).
  destruct (transpose_entry B HB) as (tB & HtB & HwftB & HeB).
  destruct (transpose_spec S HwfS) as (tS & HtS & HwftS & HgtS).
  destruct (mat_add_get (Return:=T) tA tB HwftA HwftB) as (Q & HQ & HwfQ & HgQ).
  exists S, tA, tB, tS. split_and!; [done..|]. rewrite HQ. f_equal.
  apply matrix_ext; [done..|]. intros i j Hi Hj.
  destruct (HgQ i j Hi Hj) as [-> _]. rewrite HgtS by done.
  destruct (HgS j i Hj Hi) as [-> _]. by rewrite HeA, HeB.
Qed.

Hypothesis mul_comm : ∀ x y : T, mul x y = mul y x.

(** X8 — The transpose of a product is the product of the transposes in the
    opposite order, when the element multiplication commutes. *)
Theorem transpose_mat_mul {Cols Rows OtherCols : nat}
    (A : Matrix T Cols Rows) (B : Matrix T OtherCols Cols) :
  wf A → wf B →
  ∃ AB tA tB P,
    mat_mul A B = Some AB ∧ transpose A = Some tA ∧ transpose B = Some tB ∧
    transpose AB = Some P ∧ mat_mul tB tA = Some P.
Proof.
  intros HA HB.
  destruct (mat_mul_run A B HA HB) as (AB & HAB & HwfAB & HgAB).
  destruct (transpose_entry A HA) as (tA & HtA & HwftA & HeA).
  destruct (transpose_entry B HB) as (tB & HtB & HwftB & HeB).
  destruct (transpose_spec AB HwfAB) as (P & HP & HwfP & HgP).
  destruct (mat_mul_run tB tA HwftB HwftA) as (Q & HQ & HwfQ & HgQ).
  exists AB, tA, tB, P. split_and!; [done..|]. rewrite HQ. f_equal.
  apply matrix_ext; [done..|]. intros i j Hi Hj.
  rewrite HgQ, HgP, HgAB by done. f_equal.
  apply accumulate_ext. intros k Hk. rewrite HeA, HeB by done. apply mul_comm.
Qed.
End transpose_algebra.

(** ** Addition and subtraction *)

Section linear_algebra.
Context {T : Type} `{!Zero T, !Add T T T, !Sub T T T, !Mul T T T}.
Context {Cols Rows : nat}.
Implicit Types (A B C : Matrix T Cols Rows).

(** X9 — Addition of matrices is commutative and associative when the element
    addition is. *)
Theorem mat_add_comm_assoc A B C :
  (∀ x y : T, add x y = add y x) →
  (∀ x y z : T, add x (add y z) = add (add x y) z) →
  wf A → wf B → wf C →
  ∃ AB BC ABC,
    mat_add A B = Some AB ∧ mat_add B A = Some AB ∧
    mat_add B C = Some BC ∧
    mat_add AB C = Some ABC ∧ mat_add A BC = Some ABC.
Proof.
  intros add_comm add_assoc HA HB HC.
  destruct (mat_add_get (Return:=T) A B HA HB) as (AB & HAB & HwfAB & HgAB).
  destruct (mat_add_get (Return:=T) B A HB HA) as (BA & HBA & HwfBA & HgBA).
  destruct (mat_add_get (Return:=T) B C HB HC) as (BC & HBC & HwfBC & HgBC).
  destruct (mat_add_get (Return:=T) AB C HwfAB HC) as (L & HL & HwfL & HgL).
  destruct (mat_add_get (Return:=T) A BC HA HwfBC) as (R & HR & HwfR & HgR).
  exists AB, BC, L. split_and!; [done | | done | done |].
  - rewrite HBA. f_equal. apply matrix_ext; [done..|]. intros c r Hc Hr.
    destruct (HgBA c r Hc Hr) as [-> _]. destruct (HgAB c r Hc Hr) as [-> _].
    f_equal. apply add_comm.
  - rewrite HR. f_equal. apply matrix_ext; [done..|]. intros c r Hc Hr.
    destruct (HgR c r Hc Hr) as [-> _]. destruct (HgL c r Hc Hr) as [-> _].
    destruct (HgAB c r Hc Hr) as [_ ->]. destruct (HgBC c r Hc Hr) as [_ ->].
    f_equal. apply add_assoc.
Qed.

(** X10 — Subtracting what was added gives the original matrix back, when this
    holds of the elements. *)
Theorem mat_add_sub_cancel A B :
  (∀ x y : T, sub (add x y) y = x) →
  wf A → wf B →
  ∃ S, mat_add A B = Some S ∧ mat_sub S B = Some A.
Proof.
  intros add_sub HA HB.
  destruct (mat_add_get (Return:=T) A B HA HB) as (S & HS & HwfS & HgS).
  destruct (mat_sub_get (Return:=T) S B HwfS HB) as (D & HD & HwfD & HgD).
  exists S. split; [done|]. rewrite HD. f_equal.
  apply matrix_ext; [done..|]. intros c r Hc Hr.
  destruct (HgD c r Hc Hr) as [-> _]. destruct (HgS c r Hc Hr) as [_ ->].
  rewrite add_sub. symmetry. by apply get_entry.
Qed.

End linear_algebra.

(** ** Element-type conversion *)

Section conversion.
Context {T U V : Type} `{!Zero T, !Zero U, !Zero V} {Cols Rows : nat}.

(** X13 — Conversion applies the cast to every element and keeps the shape. *)
Theorem convert_elementwise (cast : T → U) (m : Matrix T Cols Rows) :
  wf m →
  ∃ n : Matrix U Cols Rows,
    convert cast m = Some n ∧ wf n ∧
    ∀ c r, c < Cols → r < Rows → get n c r = Some (cast (entry m c r)).
Proof.
  intros Hm. destruct (convert_spec cast m Hm) as (n & Hn & Hwf & Hdata).
  exists n. split_and!; [done..|]. intros c r Hc Hr.
  pose proof (get_entry m c r Hm Hc Hr) as Hg.
  unfold get, load in *. by rewrite Hdata, list_lookup_fmap, Hg.
Qed.

(** X14 — Two conversions in a row are the conversion by the composed cast, and
    converting with the identity cast returns the matrix itself. *)
Theorem convert_compose (f : T → U) (g : U → V) (m : Matrix T Cols Rows) :
  wf m →
  (n ← convert f m; convert g n) = convert (g ∘ f) m ∧
  is_Some (convert (g ∘ f) m) ∧
  convert id m = Some m.
Proof.
  intros Hm.
  destruct (convert_spec f m Hm) as (n & Hn & Hwfn & Hdn).
  destruct (convert_spec g n Hwfn) as (p & Hp & Hwfp & Hdp).
  destruct (convert_spec (g ∘ f) m Hm) as (q & Hq & Hwfq & Hdq).
  destruct (convert_spec id m Hm) as (i & Hi & Hwfi & Hdi).
  split_and!.
  - rewrite Hn. simpl. rewrite Hp, Hq. f_equal.
    destruct p as [dp], q as [dq]. simpl in *. f_equal.
    by rewrite Hdp, Hdn, Hdq, list_fmap_compose.
  - by rewrite Hq.
  - rewrite Hi. f_equal. destruct i as [di], m as [dm]. simpl in *. f_equal.
    by rewrite Hdi, list_fmap_id.
Qed.
End conversion.

(** ** What the accessor accepts *)

Lemma linear_index_mod (Cols : nat) (col row : Z) :
  linear_index Cols col row
  = Z.to_nat ((col + row * Z.of_nat Cols) `mod` size_t_modulus)%Z.
Proof.
  unfold linear_index, to_size_t. f_equal.
  rewrite Z.add_mod_idemp_r, Z.add_mod_idemp_l by done.
  rewrite <- (Z.add_mod_idemp_r col (_ * _)), Z.mul_mod_idemp_l by done.
  by rewrite Z.add_mod_idemp_r by done.
Qed.

Lemma linear_index_nonneg (Cols : nat) (col row : Z) :
  (0 ≤ col)%Z → (0 ≤ row)%Z → (col + row * Z.of_nat Cols < size_t_modulus)%Z →
  linear_index Cols col row = Z.to_nat col + Z.to_nat row * Cols.
Proof.
  intros Hc Hr Hlt. rewrite linear_index_mod, Z.mod_small by nia.
  rewrite Z2Nat.inj_add, Z2Nat.inj_mul, Nat2Z.id by nia. done.
Qed.

Lemma linear_index_wrap (Cols : nat) (col row : Z) :
  linear_index Cols (col + Z.of_nat Cols) row = linear_index Cols col (row + 1).
Proof. rewrite !linear_index_mod. do 2 f_equal. lia. Qed.

Section accessor_bounds.
Context {T : Type} {Cols Rows : nat}.
Implicit Types (m : Matrix T Cols Rows).

(** X15 — The accessor checks neither of its [int] arguments and forms the
    index in [std::size_t].  On non-negative arguments whose index does not
    overflow it is [get] and [set]; a read or a write is defined exactly
    when the wrapped index lies inside the storage; [(col + Cols, row)] names
    the element of [(col, row + 1)] for every [col] and [row], negative ones
    included, so that column [-1] of row [row + 1] is the last column of row
    [row]. *)
Theorem accessor_wraps_its_arguments m (col row : Z) (x : T) :
  ((0 ≤ col)%Z → (0 ≤ row)%Z → (col + row * Z.of_nat Cols < size_t_modulus)%Z →
     get_int m col row = get m (Z.to_nat col) (Z.to_nat row) ∧
     set_int m col row x = set m (Z.to_nat col) (Z.to_nat row) x) ∧
  (is_Some (get_int m col row) ↔ linear_index Cols col row < length (data m)) ∧
  (is_Some (set_int m col row x) ↔ linear_index Cols col row < length (data m)) ∧
  get_int m (col + Z.of_nat Cols) row = get_int m col (row + 1) ∧
  set_int m (col + Z.of_nat Cols) row x = set_int m col (row + 1) x ∧
  (0 < Cols → (0 ≤ row)%Z →
     (Z.of_nat Cols - 1 + row * Z.of_nat Cols < size_t_modulus)%Z →
     get_int m (-1) (row + 1) = get m (Cols - 1) (Z.to_nat row) ∧
     set_int m (-1) (row + 1) x = set m (Cols - 1) (Z.to_nat row) x).
Proof.
  split_and!.
  - intros Hc Hr Hlt. unfold get_int, set_int, get, set.
    by rewrite linear_index_nonneg.
  - unfold get_int, load. apply lookup_lt_is_Some.
  - unfold set_int, store. case_decide; simpl.
    + split; [done | by eexists].
    + split; [intros [? [=]] | done].
  - unfold get_int. by rewrite linear_index_wrap.
  - unfold set_int. by rewrite linear_index_wrap.
  - intros HC Hr Hlt.
    assert (linear_index Cols (-1) (row + 1) = (Cols - 1) + Z.to_nat row * Cols)
      as Hidx.
    { rewrite linear_index_mod.
      replace (-1 + (row + 1) * Z.of_nat Cols)%Z
        with (Z.of_nat Cols - 1 + row * Z.of_nat Cols)%Z by lia.
      rewrite Z.mod_small by nia.
      rewrite Z2Nat.inj_add, Z2Nat.inj_mul, Nat2Z.id by nia. lia. }
    unfold get_int, set_int, get, set. by rewrite Hidx.
Qed.
End accessor_bounds.

(** ** When the [std::transform]-based operators are defined *)

Section transform_bounds.
Context {A B C : Type}.

Lemma transform_is_Some (f : A → B) (src : list A) (dst : list B) :
  is_Some (transform f src dst) ↔ length src ≤ length dst.
Proof.
  split.
  - revert dst. induction src as [|x src IH]; intros [|y dst]; simpl;
      try lia; [by intros [? [=]]|].
    destruct (transform f src dst) eqn:E; [|by intros [? [=]]]. intros _.
    specialize (IH dst). rewrite E in IH. specialize (IH ltac:(by eexists)). lia.
  - intros Hlen. rewrite transform_Some by done. by eexists.
Qed.

Lemma transform2_is_Some (f : A → B → C) (src1 : list A) (src2 : list B)
    (dst : list C) :
  is_Some (transform2 f src1 src2 dst)
  ↔ length src1 ≤ length src2 ∧ length src1 ≤ length dst.
Proof.
  split.
  - revert src2 dst. induction src1 as [|x src1 IH]; intros [|y src2] [|z dst];
      simpl; try lia; try (by intros [? [=]]).
    destruct (transform2 f src1 src2 dst) eqn:E; [|by intros [? [=]]]. intros _.
    specialize (IH src2 dst). rewrite E in IH.
    specialize (IH ltac:(by eexists)). lia.
  - intros [H1 H2]. rewrite transform2_Some by done. by eexists.
Qed.
End transform_bounds.

Section elementwise_bounds.
Context {T U Return : Type} `{!Zero Return} {Cols Rows : nat}.

(** X16 — Conversion, addition and subtraction write into a fresh
    [Cols * Rows] destination while walking the whole storage of the left
    operand; they are defined exactly when that storage is no longer than
    the destination and, for the binary operators, than the right operand's
    storage. *)
Theorem elementwise_defined_iff
    `{!Add T U Return, !Sub T U Return}
    (this : Matrix T Cols Rows) (other : Matrix U Cols Rows)
    (cast : T → Return) :
  (is_Some (convert cast this) ↔ length (data this) ≤ Cols * Rows) ∧
  (is_Some (mat_add (Return:=Return) this other)
     ↔ length (data this) ≤ length (data other)
       ∧ length (data this) ≤ Cols * Rows) ∧
  (is_Some (mat_sub (Return:=Return) this other)
     ↔ length (data this) ≤ length (data other)
       ∧ length (data this) ≤ Cols * Rows).
Proof.
  unfold convert, mat_add, mat_sub.
  rewrite !fmap_is_Some, !transform_is_Some, !transform2_is_Some. simpl.
  by rewrite length_replicate.
Qed.
End elementwise_bounds.

(** ** Storage longer than [Cols * Rows] *)

Section prefix_facts.
Context {T : Type} `{!Zero T}.

Lemma for_range_ext {St : Type} (body1 body2 : nat → St → option St) n :
  ∀ lo s,
    (∀ k t, lo ≤ k < lo + n → body1 k t = body2 k t) →
    for_range lo n body1 s = for_range lo n body2 s.
Proof.
  induction n as [|n IH]; intros lo s Hext; simpl; [done|].
  rewrite Hext by lia. destruct (body2 lo s) as [t|]; simpl; [|done].
  apply IH. intros k u Hk. apply Hext. lia.
Qed.

Lemma copy_row_take (n dist : nat) : ∀ (src : list T) thisRow dst slicedRow,
  thisRow + dist ≤ n →
  copy_row dist (take n src) thisRow dst slicedRow
  = copy_row dist src thisRow dst slicedRow.
Proof.
  induction dist as [|dist IH]; intros src thisRow dst slicedRow Hn; simpl; [done|].
  unfold load. rewrite lookup_take_lt by lia.
  destruct (src !! thisRow) as [x|]; simpl; [|done].
  destruct (store dst slicedRow x) as [dst'|]; simpl; [|done].
  apply IH. lia.
Qed.

Lemma truncate_wf {Cols Rows : nat} (m : Matrix T Cols Rows) :
  Cols * Rows ≤ length (data m) → wf (truncate m).
Proof. intros Hm. unfold wf, truncate; simpl. rewrite length_take. lia. Qed.

Lemma get_truncate {Cols Rows : nat} (m : Matrix T Cols Rows) col row :
  col < Cols → row < Rows → get (truncate m) col row = get m col row.
Proof.
  intros Hc Hr. unfold get, load, truncate; simpl.
  apply lookup_take_lt. by apply index_lt.
Qed.

Lemma transpose_truncate {Cols Rows : nat} (m : Matrix T Cols Rows) :
  transpose (truncate m) = transpose m.
Proof.
  unfold transpose. apply for_range_ext. intros i t Hi.
  apply for_range_ext. intros j u Hj. rewrite get_truncate by lia. done.
Qed.

Lemma slice_truncate {Cols Rows : nat} (NewCols NewRows : nat)
    (m : Matrix T Cols Rows) :
  Cols * Rows ≤ length (data m) →
  slice NewCols NewRows (truncate m) = slice NewCols NewRows m.
Proof.
  intros Hm. unfold slice.
  assert ((if Rows <? NewRows then Rows else NewRows) = Rows `min` NewRows) as ->.
  { destruct (Nat.ltb_spec Rows NewRows); lia. }
  destruct (Nat.eqb_spec Cols NewCols) as [<-|Hne]; simpl.
  - assert (Rows `min` NewRows * Cols ≤ Cols * Rows) as Hle by nia.
    rewrite length_take, take_take.
    replace ((Rows `min` NewRows * Cols) `min` (Cols * Rows))
      with (Rows `min` NewRows * Cols) by lia.
    destruct (decide (Rows `min` NewRows * Cols ≤ (Cols * Rows) `min` length (data m))),
      (decide (Rows `min` NewRows * Cols ≤ length (data m))); done || lia.
  - assert ((if Cols <? NewCols then Cols else NewCols) = Cols `min` NewCols) as ->.
    { destruct (Nat.ltb_spec Cols NewCols); lia. }
    apply for_range_ext. intros i s Hi. f_equal.
    apply copy_row_take. nia.
Qed.

Lemma slice_covering {Cols Rows : nat} (NewCols NewRows : nat)
    (m : Matrix T Cols Rows) :
  Cols * Rows ≤ length (data m) →
  ∃ s, slice NewCols NewRows m = Some s ∧
    NewCols * NewRows ≤ length (data s) ∧
    ∀ c r, c < NewCols → r < NewRows →
      get s c r =
        if decide (c < Cols `min` NewCols ∧ r < Rows `min` NewRows)
        then get m c r else Some zero.
Proof.
  intros Hm.
  destruct (slice_run NewCols NewRows (truncate m) (truncate_wf m Hm))
    as (s & Hs & Hlen & Hget).
  rewrite slice_truncate in Hs by done.
  exists s. split_and!; [done | lia |]. intros c r Hc Hr. rewrite Hget by done.
  destruct (decide (c < Cols `min` NewCols ∧ r < Rows `min` NewRows)) as [Hin|Hout];
    [apply get_truncate; lia | done].
Qed.
End prefix_facts.

Section product_prefix.
Context {T U Return : Type}.
Context `{!Zero Return, !Mul T U Return, !Add Return Return Return}.
Context {Cols Rows OtherCols : nat}.

Lemma mat_mul_truncate (this : Matrix T Cols Rows) (other : Matrix U OtherCols Cols) :
  mat_mul (truncate this) (truncate other) = mat_mul this other.
Proof.
  unfold mat_mul, rows, cols. apply for_range_ext. intros i n Hi.
  apply for_range_ext. intros j n' Hj. apply for_range_ext. intros k n'' Hk.
  rewrite !get_truncate by lia. done.
Qed.
End product_prefix.

Section long_storage.
Context {T : Type} `{!Zero T, !Add T T T, !Sub T T T, !Mul T T T}.
Context {Cols Rows : nat}.

(** X17 — [transpose] and the matrix product go through the accessor and so read
    only the first [Cols * Rows] elements of their operands: on storage that
    is too long they return what they return on the well-formed prefix, a
    well-formed result. *)
Theorem accessor_operations_read_the_prefix {OtherCols : nat}
    (A : Matrix T Cols Rows) (B : Matrix T OtherCols Cols) :
  Cols * Rows ≤ length (data A) → OtherCols * Cols ≤ length (data B) →
  (∃ t, transpose A = Some t ∧ wf t ∧
     ∀ i j, i < Rows → j < Cols → get t i j = get A j i) ∧
  (∃ n, mat_mul A B = Some n ∧ wf n ∧
     ∀ j i, j < OtherCols → i < Rows →
       get n j i = Some (accumulate Cols (λ k, mul (entry A k i) (entry B j k)))).
Proof.
  intros HA HB. split.
  - destruct (transpose_spec (truncate A) (truncate_wf A HA)) as (t & Ht & Hwf & Hg).
    rewrite transpose_truncate in Ht. exists t. split_and!; [done..|].
    intros i j Hi Hj. rewrite Hg by done. by apply get_truncate.
  - destruct (mat_mul_run (truncate A) (truncate B) (truncate_wf A HA)
                (truncate_wf B HB)) as (n & Hn & Hwf & Hg).
    rewrite mat_mul_truncate in Hn. exists n. split_and!; [done..|].
    intros j i Hj Hi. rewrite Hg by done. f_equal. apply accumulate_ext.
    intros k Hk. unfold entry. by rewrite !get_truncate.
Qed.

(** X18 — A slice that keeps the column count and copies at least one element
    returns storage on which conversion, addition and subtraction are
    undefined (they would write past their destination), while its transpose
    is well-formed again. *)
Theorem same_column_slice_then_elementwise (NewRows : nat)
    (A : Matrix T Cols Rows) (B : Matrix T Cols NewRows) (cast : T → T) :
  wf A → 0 < Cols → 0 < Rows → 0 < NewRows →
  ∃ s : Matrix T Cols NewRows,
    slice Cols NewRows A = Some s ∧
    convert cast s = None ∧
    mat_add (Return:=T) s B = None ∧
    mat_sub (Return:=T) s B = None ∧
    ∃ t, transpose s = Some t ∧ wf t.
Proof.
  intros HA HC HR HN.
  destruct (slice_run Cols NewRows A HA) as (s & Hs & Hlen & Hget).
  rewrite decide_True in Hlen by done.
  assert (Cols * NewRows < length (data s)) as Hlong by (rewrite Hlen; nia).
  destruct (elementwise_defined_iff s B cast) as (Hc & Ha & Hd).
  exists s. split_and!; [done | | | |].
  - apply eq_None_not_Some. rewrite Hc. lia.
  - apply eq_None_not_Some. rewrite Ha. lia.
  - apply eq_None_not_Some. rewrite Hd. lia.
  - destruct (transpose_spec (truncate s) (truncate_wf s ltac:(lia)))
      as (t & Ht & Hwf & _).
    rewrite transpose_truncate in Ht. eauto.
Qed.

(** X19 — Two slices in a row keep the elements inside all three shapes and zero
    the rest; in particular enlarging and then slicing back to the original
    shape returns every element of the original. *)
Theorem slice_slice (C1 R1 C2 R2 : nat) (A : Matrix T Cols Rows) :
  wf A →
  (∃ s1 s2, slice C1 R1 A = Some s1 ∧ slice C2 R2 s1 = Some s2 ∧
     ∀ c r, c < C2 → r < R2 →
       get s2 c r =
         Some (if decide (c < (Cols `min` C1) `min` C2 ∧ r < (Rows `min` R1) `min` R2)
               then entry A c r else zero)) ∧
  (Cols ≤ C1 → Rows ≤ R1 →
   ∃ s1 s2, slice C1 R1 A = Some s1 ∧ slice Cols Rows s1 = Some s2 ∧
     ∀ c r, c < Cols → r < Rows → get s2 c r = get A c r).
Proof.
  intros HA.
  assert (∀ C2 R2, ∃ s1 s2, slice C1 R1 A = Some s1 ∧ slice C2 R2 s1 = Some s2 ∧
     ∀ c r, c < C2 → r < R2 →
       get s2 c r =
         Some (if decide (c < (Cols `min` C1) `min` C2 ∧ r < (Rows `min` R1) `min` R2)
               then entry A c r else zero)) as Hgen.
  { intros C2' R2'.
    destruct (slice_run C1 R1 A HA) as (s1 & Hs1 & Hlen1 & Hg1).
    destruct (slice_covering C2' R2' s1) as (s2 & Hs2 & _ & Hg2); [lia|].
    exists s1, s2. split_and!; [done..|]. intros c r Hc Hr.
    rewrite Hg2 by done.
    destruct (decide (c < C1 `min` C2' ∧ r < R1 `min` R2')) as [Hin|Hout].
    - rewrite Hg1 by lia.
      destruct (decide (c < Cols `min` C1 ∧ r < Rows `min` R1)) as [Hin'|Hout'].
      + rewrite decide_True by lia. apply get_entry; [done | lia | lia].
      + by rewrite decide_False by lia.
    - by rewrite decide_False by lia. }
  split; [apply Hgen|]. intros HC HR.
  destruct (Hgen Cols Rows) as (s1 & s2 & Hs1 & Hs2 & Hg).
  exists s1, s2. split_and!; [done..|]. intros c r Hc Hr.
  rewrite Hg, decide_True by lia. symmetry. by apply get_entry.
Qed.

(** X20 — Slicing commutes with transposition: the transpose of the
    [NewCols]×[NewRows] slice and the [NewRows]×[NewCols] slice of the
    transpose hold the same element at every position. *)
Theorem transpose_slice (NewCols NewRows : nat) (A : Matrix T Cols Rows) :
  wf A →
  ∃ s ts tA st,
    slice NewCols NewRows A = Some s ∧ transpose s = Some ts ∧
    transpose A = Some tA ∧ slice NewRows NewCols tA = Some st ∧
    ∀ i j, i < NewRows → j < NewCols → get ts i j = get st i j.
Proof.
  intros HA.
  destruct (slice_run NewCols NewRows A HA) as (s & Hs & Hlen & Hgs).
  destruct (transpose_spec (truncate s) (truncate_wf s ltac:(lia)))
    as (ts & Hts & Hwfts & Hgts).
  rewrite transpose_truncate in Hts.
  destruct (transpose_spec A HA) as (tA & HtA & HwftA & HgtA).
  destruct (slice_run NewRows NewCols tA HwftA) as (st & Hst & _ & Hgst).
  exists s, ts, tA, st. split_and!; [done..|]. intros i j Hi Hj.
  rewrite Hgts, get_truncate, Hgs, Hgst by done.
  destruct (decide (j < Cols `min` NewCols ∧ i < Rows `min` NewRows)) as [Hin|Hout].
  - rewrite decide_True by lia. symmetry. apply HgtA; lia.
  - by rewrite decide_False by lia.
Qed.
End long_storage.

(** ** Results of the [std::transform]-based operators *)

Section elementwise_results.
Context {T U Return : Type} `{!Zero Return} {Cols Rows : nat}.

Lemma transform_length {A B : Type} (f : A → B) (src : list A) (dst dst' : list B) :
  transform f src dst = Some dst' → length dst' = length dst.
Proof.
  intros Hrun. assert (length src ≤ length dst) as Hlen.
  { apply (proj1 (transform_is_Some f src dst)). by eexists. }
  rewrite transform_Some in Hrun by done. injection Hrun as <-.
  rewrite length_app, length_fmap, length_drop. lia.
Qed.

Lemma transform2_length {A B C : Type} (f : A → B → C) (src1 : list A)
    (src2 : list B) (dst dst' : list C) :
  transform2 f src1 src2 dst = Some dst' → length dst' = length dst.
Proof.
  intros Hrun.
  assert (length src1 ≤ length src2 ∧ length src1 ≤ length dst) as [H1 H2].
  { apply (proj1 (transform2_is_Some f src1 src2 dst)). by eexists. }
  rewrite transform2_Some in Hrun by done. injection Hrun as <-.
  rewrite length_app, length_zip_with, length_drop. lia.
Qed.

(** X21 — Whatever the operands' storage, a result that conversion, addition
    or subtraction returns has exactly [Cols * Rows] elements. *)
Theorem elementwise_results_well_formed
    `{!Add T U Return, !Sub T U Return}
    (this : Matrix T Cols Rows) (other : Matrix U Cols Rows)
    (cast : T → Return) (n : Matrix Return Cols Rows) :
  convert cast this = Some n ∨
  mat_add this other = Some n ∨ mat_sub this other = Some n →
  wf n.
Proof.
  unfold convert, mat_add, mat_sub, wf.
  intros [H|[H|H]];
    apply fmap_Some in H as (d & Hd & ->); simpl;
    (apply transform_length in Hd || apply transform2_length in Hd);
    rewrite Hd; simpl; apply length_replicate.
Qed.
End elementwise_results.

(** ** Vectors *)

Section vectors.
Context {T : Type} `{!Zero T, !Add T T T, !Mul T T T}.

(** X22 — For two column vectors [v], [w] of the same height ([Vector2],
    [Vector3], [Vector4], ...), [transpose(v) * w] is the 1×1 matrix holding
    their dot product, the sum of [v[k] * w[k]] taken from zero in index
    order. *)
Theorem vector_dot_product (N : nat) (v w : Matrix T 1 N) :
  wf v → wf w →
  ∃ (tv : Matrix T N 1) (d : Matrix T 1 1),
    transpose v = Some tv ∧ mat_mul tv w = Some d ∧
    data d = [accumulate N (λ k, mul (entry v 0 k) (entry w 0 k))] ∧
    ∀ k, k < N → data v !! k = Some (entry v 0 k) ∧ data w !! k = Some (entry w 0 k).
Proof.
  intros Hv Hw.
  destruct (transpose_entry v Hv) as (tv & Htv & Hwftv & Hetv).
  destruct (mat_mul_run tv w Hwftv Hw) as (d & Hd & Hwfd & Hgd).
  exists tv, d. split_and!; [done..| |].
  - specialize (Hgd 0 0 ltac:(lia) ltac:(lia)).
    destruct d as [[|x [|y l]]]; unfold wf, get, load in *; simpl in *; try lia.
    injection Hgd as ->. f_equal. apply accumulate_ext. intros k Hk.
    by rewrite Hetv by lia.
  - intros k Hk. split.
    + rewrite <- (get_entry v 0 k) by (done || lia). unfold get, load. f_equal. lia.
    + rewrite <- (get_entry w 0 k) by (done || lia). unfold get, load. f_equal. lia.
Qed.
End vectors.

(** ** Printing *)

Lemma append_assoc (s1 s2 s3 : string) : (s1 +:+ s2) +:+ s3 = s1 +:+ (s2 +:+ s3).
Proof.
  induction s1 as [|a s1 IH]; [reflexivity|].
  change (String a ((s1 +:+ s2) +:+ s3) = String a (s1 +:+ (s2 +:+ s3))).
  by f_equal.
Qed.

Lemma append_nil_r (s : string) : s +:+ "" = s.
Proof.
  induction s as [|a s IH]; [reflexivity|].
  change (String a (s +:+ "") = String a s). by f_equal.
Qed.

Lemma foldr_append_tail (f : nat → string) (z : string) (l : list nat) :
  foldr (λ j rest, f j +:+ rest) z l = foldr (λ j rest, f j +:+ rest) "" l +:+ z.
Proof.
  induction l as [|j l IH]; [reflexivity|].
  change (f j +:+ foldr (λ j rest, f j +:+ rest) z l
          = (f j +:+ foldr (λ j rest, f j +:+ rest) "" l) +:+ z).
  by rewrite IH, append_assoc.
Qed.

Lemma foldr_append_snoc (f : nat → string) (n : nat) :
  foldr (λ j rest, f j +:+ rest) "" (seq 0 (S n))
  = foldr (λ j rest, f j +:+ rest) "" (seq 0 n) +:+ f n.
Proof.
  rewrite seq_S, foldr_app, foldr_append_tail.
  change (foldr (λ j rest, f j +:+ rest) "" (seq 0 n) +:+ (f n +:+ "") = 
          foldr (λ j rest, f j +:+ rest) "" (seq 0 n) +:+ f n).
  by rewrite append_nil_r.
Qed.

Section printing.
Context {T : Type} `{!Zero T} {Cols Rows : nat}.
Variable show : T → string.

(** X23 — [printMatrix] on a well-formed matrix reads no element out of range,
    leaves what was written before in place, and appends the rows in order,
    each as the prefix followed by the row's elements in column order with a
    space after every element and a line end, and then one empty line. *)
Theorem printMatrix_appends_rows (mat : Matrix T Cols Rows) (rowPrefix cout : string) :
  wf mat →
  printMatrix show mat rowPrefix cout
  = Some (cout +:+ matrix_text show mat rowPrefix).
Proof.
  intros Hm. unfold printMatrix.
  set (elem := λ i j, show (entry mat j i) +:+ " ").
  set (elems := λ i n, foldr (λ j rest, elem i j +:+ rest) "" (seq 0 n)).
  set (line := λ i, rowPrefix +:+ elems i Cols +:+ newline).
  set (lines := λ n, foldr (λ i rest, line i +:+ rest) "" (seq 0 n)).
  assert (∀ i, row_text show mat rowPrefix i = line i) as Hrow.
  { intros i. unfold row_text, line, elems. f_equal.
    rewrite <- (foldr_append_tail (elem i) newline).
    apply foldr_ext; [|done..]. intros j rest. unfold elem.
    by rewrite append_assoc. }
  assert (matrix_text show mat rowPrefix = lines Rows +:+ newline) as ->.
  { unfold matrix_text, lines. rewrite foldr_append_tail. f_equal.
    apply foldr_ext; [|done..]. intros i rest. by rewrite Hrow. }
  destruct (for_range_inv
    (λ i out, out = cout +:+ lines i)
    (λ i cout,
       let cout := cout +:+ rowPrefix in
       cout ← for_range 0 Cols (λ j cout,
         x ← get mat j i; Some ((cout +:+ show x) +:+ " ")) cout;
       Some (cout +:+ newline))
    Rows 0 cout) as (out & Hrun & Hout).
  - unfold lines. simpl. by rewrite append_nil_r.
  - intros i out Hi ->. simpl.
    destruct (for_range_inv
      (λ j o, o = ((cout +:+ lines i) +:+ rowPrefix) +:+ elems i j)
      (λ j cout, x ← get mat j i; Some ((cout +:+ show x) +:+ " "))
      Cols 0 ((cout +:+ lines i) +:+ rowPrefix)) as (o & Hline & Ho).
    + unfold elems. simpl. by rewrite append_nil_r.
    + intros j o Hj ->. rewrite (get_entry mat j i) by (done || lia). simpl.
      eexists. split; [done|]. unfold elems.
      rewrite (foldr_append_snoc (elem i) j). unfold elem.
      by rewrite !append_assoc.
    + rewrite Hline. simpl. eexists. split; [done|]. rewrite Ho. unfold lines.
      rewrite (foldr_append_snoc line i). unfold line.
      by rewrite !append_assoc.
  - cbv zeta in Hrun. rewrite Hrun. simpl. by rewrite Hout, append_assoc.
Qed.
End printing.

(** ** Instances on integer matrices *)

Lemma mat_mul_identity_any_shape_witness :
  ∃ (idc : Matrix Z 3 3) (idr : Matrix Z 2 2),
    identity 3 = Some idc ∧ identity 2 = Some idr ∧
    mat_mul (Matrix_init [1; 2; 3; 4; 5; 6]%Z : Matrix Z 3 2) idc
      = Some (Matrix_init [1; 2; 3; 4; 5; 6]%Z) ∧
    mat_mul idr (Matrix_init [1; 2; 3; 4; 5; 6]%Z : Matrix Z 3 2)
      = Some (Matrix_init [1; 2; 3; 4; 5; 6]%Z).
Proof.
  apply (mat_mul_identity_any_shape (T:=Z)
           Z.add_0_l Z.add_0_r Z.mul_1_l Z.mul_1_r Z.mul_0_l Z.mul_0_r
           (Matrix_init [1; 2; 3; 4; 5; 6]%Z : Matrix Z 3 2)).
  reflexivity.
Defined.

Lemma mat_mul_zero_witness :
  mat_mul (Matrix_init [1; 2; 3; 4]%Z : Matrix Z 2 2) (Matrix_default : Matrix Z 3 2)
    = Some Matrix_default ∧
  mat_mul (Matrix_default : Matrix Z 2 2) (Matrix_init [1; 2; 3; 4; 5; 6]%Z : Matrix Z 3 2)
    = Some Matrix_default.
Proof.
  apply (mat_mul_zero (T:=Z) Z.add_0_l Z.mul_0_l Z.mul_0_r
           (Matrix_init [1; 2; 3; 4]%Z : Matrix Z 2 2)
           (Matrix_init [1; 2; 3; 4; 5; 6]%Z : Matrix Z 3 2)); reflexivity.
Defined.

Lemma mat_mul_assoc_witness :
  ∃ (AB : Matrix Z 2 1) (BC : Matrix Z 1 2) (ABC : Matrix Z 1 1),
    mat_mul (Matrix_init [1; 2]%Z : Matrix Z 2 1)
            (Matrix_init [3; 4; 5; 6]%Z : Matrix Z 2 2) = Some AB ∧
    mat_mul (Matrix_init [3; 4; 5; 6]%Z : Matrix Z 2 2)
            (Matrix_init [7; 8]%Z : Matrix Z 1 2) = Some BC ∧
    mat_mul AB (Matrix_init [7; 8]%Z : Matrix Z 1 2) = Some ABC ∧
    mat_mul (Matrix_init [1; 2]%Z : Matrix Z 2 1) BC = Some ABC.
Proof.
  apply (mat_mul_assoc (T:=Z) Z.add_0_l Z.add_comm Z.add_assoc Z.mul_0_l Z.mul_0_r
           Z.mul_add_distr_l Z.mul_add_distr_r Z.mul_assoc); reflexivity.
Defined.

Lemma mat_mul_add_distr_witness :
  ∃ S AB AB' P,
    mat_add (Matrix_init [1; 0]%Z : Matrix Z 1 2) (Matrix_init [0; 1]%Z : Matrix Z 1 2)
      = Some S ∧
    mat_mul (Matrix_init [1; 2; 3; 4]%Z : Matrix Z 2 2) (Matrix_init [1; 0]%Z) = Some AB ∧
    mat_mul (Matrix_init [1; 2; 3; 4]%Z : Matrix Z 2 2) (Matrix_init [0; 1]%Z) = Some AB' ∧
    mat_mul (Matrix_init [1; 2; 3; 4]%Z : Matrix Z 2 2) S = Some P ∧
    mat_add AB AB' = Some P.
Proof.
  apply (proj1 (mat_mul_add_distr (T:=Z) Z.add_0_l Z.add_comm Z.add_assoc
                  Z.mul_add_distr_l Z.mul_add_distr_r
                  (Matrix_init [1; 2; 3; 4]%Z : Matrix Z 2 2)
                  (Matrix_init [1; 2; 3; 4]%Z : Matrix Z 2 2)
                  (Matrix_init [1; 0]%Z : Matrix Z 1 2)
                  (Matrix_init [0; 1]%Z : Matrix Z 1 2)
                  eq_refl eq_refl eq_refl eq_refl)).
Defined.

Lemma transpose_add_witness :
  ∃ S tA tB tS,
    mat_add (Matrix_init [1; 2; 3; 4; 5; 6]%Z : Matrix Z 3 2)
            (Matrix_init [6; 5; 4; 3; 2; 1]%Z : Matrix Z 3 2) = Some S ∧
    transpose (Matrix_init [1; 2; 3; 4; 5; 6]%Z : Matrix Z 3 2) = Some tA ∧
    transpose (Matrix_init [6; 5; 4; 3; 2; 1]%Z : Matrix Z 3 2) = Some tB ∧
    transpose S = Some tS ∧ mat_add tA tB = Some tS.
Proof. apply (transpose_add (T:=Z)); reflexivity. Defined.

Lemma transpose_mat_mul_witness :
  ∃ AB tA tB P,
    mat_mul (Matrix_init [1; 2; 3; 4]%Z : Matrix Z 2 2)
            (Matrix_init [1; 2; 3; 4; 5; 6]%Z : Matrix Z 3 2) = Some AB ∧
    transpose (Matrix_init [1; 2; 3; 4]%Z : Matrix Z 2 2) = Some tA ∧
    transpose (Matrix_init [1; 2; 3; 4; 5; 6]%Z : Matrix Z 3 2) = Some tB ∧
    transpose AB = Some P ∧ mat_mul tB tA = Some P.
Proof. apply (transpose_mat_mul (T:=Z) Z.mul_comm); reflexivity. Defined.

Lemma mat_add_comm_assoc_witness :
  ∃ AB BC ABC,
    mat_add (Matrix_init [1; 2]%Z : Vector2 Z) (Matrix_init [3; 4]%Z : Vector2 Z) = Some AB ∧
    mat_add (Matrix_init [3; 4]%Z : Vector2 Z) (Matrix_init [1; 2]%Z : Vector2 Z) = Some AB ∧
    mat_add (Matrix_init [3; 4]%Z : Vector2 Z) (Matrix_init [5; 6]%Z : Vector2 Z) = Some BC ∧
    mat_add AB (Matrix_init [5; 6]%Z : Vector2 Z) = Some ABC ∧
    mat_add (Matrix_init [1; 2]%Z : Vector2 Z) BC = Some ABC.
Proof.
  apply (mat_add_comm_assoc (T:=Z) _ _ _ Z.add_comm Z.add_assoc); reflexivity.
Defined.

Lemma mat_add_sub_cancel_witness :
  ∃ S, mat_add (Matrix_init [1; 2]%Z : Vector2 Z) (Matrix_init [3; 4]%Z : Vector2 Z) = Some S ∧
       mat_sub S (Matrix_init [3; 4]%Z : Vector2 Z) = Some (Matrix_init [1; 2]%Z).
Proof.
  apply (mat_add_sub_cancel (T:=Z) _ _ Z.add_simpl_r); reflexivity.
Defined.

Lemma convert_elementwise_witness :
  ∃ n : Matrix Z 2 1,
    convert Z.abs (Matrix_init [-3; 4]%Z : Matrix Z 2 1) = Some n ∧
    wf n ∧ get n 0 0 = Some 3%Z.
Proof.
  destruct (convert_elementwise Z.abs (Matrix_init [-3; 4]%Z : Matrix Z 2 1))
    as (n & Hn & Hwf & Hget); [reflexivity|].
  exists n. split_and!; [done..|]. rewrite (Hget 0 0) by lia. reflexivity.
Defined.

Lemma convert_compose_witness :
  (n ← convert Z.opp (Matrix_init [-3; 4]%Z : Matrix Z 2 1); convert Z.abs n)
  = convert (Z.abs ∘ Z.opp) (Matrix_init [-3; 4]%Z : Matrix Z 2 1).
Proof.
  apply (convert_compose Z.opp Z.abs (Matrix_init [-3; 4]%Z : Matrix Z 2 1)).
  reflexivity.
Defined.

Lemma accessor_wraps_its_arguments_witness :
  get_int (Matrix_init [1; 2; 3; 4]%Z : Matrix Z 2 2) (-1) (0 + 1) = Some 2%Z.
Proof.
  destruct (accessor_wraps_its_arguments
              (Matrix_init [1; 2; 3; 4]%Z : Matrix Z 2 2) 0%Z 0%Z 0%Z)
    as (_ & _ & _ & _ & _ & Hneg).
  destruct Hneg as [Hget _]; [lia | lia | reflexivity |].
  rewrite Hget. reflexivity.
Defined.

Lemma accessor_operations_read_the_prefix_witness :
  ∃ t, transpose (mkMatrix [5; 0]%Z : Matrix Z 1 1) = Some t ∧ wf t.
Proof.
  destruct (accessor_operations_read_the_prefix
              (mkMatrix [5; 0]%Z : Matrix Z 1 1) (mkMatrix [7; 0]%Z : Matrix Z 1 1))
    as [(t & Ht & Hwf & _) _]; [simpl; lia | simpl; lia |].
  by exists t.
Defined.

Lemma same_column_slice_then_elementwise_witness :
  ∃ s : Matrix Z 2 1,
    slice 2 1 (Matrix_init [1; 2; 3; 4]%Z : Matrix Z 2 2) = Some s ∧
    mat_add (Return:=Z) s (Matrix_init [1; 1]%Z : Matrix Z 2 1) = None.
Proof.
  destruct (same_column_slice_then_elementwise 1
              (Matrix_init [1; 2; 3; 4]%Z : Matrix Z 2 2)
              (Matrix_init [1; 1]%Z : Matrix Z 2 1) id)
    as (s & Hs & _ & Hadd & _); [reflexivity | lia | lia | lia |].
  by exists s.
Defined.

Lemma slice_slice_witness :
  ∃ (s1 : Matrix Z 3 3) (s2 : Matrix Z 2 2),
    slice 3 3 (Matrix_init [1; 2; 3; 4]%Z : Matrix Z 2 2) = Some s1 ∧
    slice 2 2 s1 = Some s2 ∧
    get s2 1 1 = Some 4%Z.
Proof.
  destruct (proj2 (slice_slice 3 3 2 2 (Matrix_init [1; 2; 3; 4]%Z : Matrix Z 2 2)
                     eq_refl)) as (s1 & s2 & H1 & H2 & Hget); [lia | lia |].
  exists s1, s2. split_and!; [done..|]. rewrite (Hget 1 1) by lia. reflexivity.
Defined.

Lemma transpose_slice_witness :
  ∃ s ts tA st,
    slice 2 3 (Matrix_init [1; 2; 3; 4; 5; 6]%Z : Matrix Z 3 2) = Some s ∧
    transpose s = Some ts ∧
    transpose (Matrix_init [1; 2; 3; 4; 5; 6]%Z : Matrix Z 3 2) = Some tA ∧
    slice 3 2 tA = Some st ∧
    get ts 1 1 = get st 1 1.
Proof.
  destruct (transpose_slice 2 3 (Matrix_init [1; 2; 3; 4; 5; 6]%Z : Matrix Z 3 2))
    as (s & ts & tA & st & H1 & H2 & H3 & H4 & Hget); [reflexivity|].
  exists s, ts, tA, st. split_and!; [done..|]. apply Hget; lia.
Defined.

Lemma elementwise_results_well_formed_witness :
  wf (mkMatrix [5; 7]%Z : Vector2 Z).
Proof.
  apply (elementwise_results_well_formed (U:=Z)
           (mkMatrix [2; 3]%Z : Vector2 Z) (mkMatrix [3; 4; 9; 9]%Z : Vector2 Z)
           id).
  right. left. reflexivity.
Defined.

Lemma vector_dot_product_witness :
  ∃ (tv : Matrix Z 3 1) (d : Matrix Z 1 1),
    transpose (Matrix_init [1; 2; 3]%Z : Vector3 Z) = Some tv ∧
    mat_mul tv (Matrix_init [4; 5; 6]%Z : Vector3 Z) = Some d ∧
    data d = [32%Z].
Proof.
  destruct (vector_dot_product 3 (Matrix_init [1; 2; 3]%Z : Vector3 Z)
              (Matrix_init [4; 5; 6]%Z : Vector3 Z))
    as (tv & d & Htv & Hd & Hdata & _); [reflexivity | reflexivity |].
  exists tv, d. split_and!; [done..|]. rewrite Hdata. reflexivity.
Defined.

Lemma printMatrix_appends_rows_witness :
  printMatrix (λ x : Z, if decide (x = 0%Z) then "0" else "x")
    (Matrix_init [0; 1; 1; 0]%Z : Matrix Z 2 2) "> " "m:"
  = Some ("m:" +:+ matrix_text (λ x : Z, if decide (x = 0%Z) then "0" else "x")
                     (Matrix_init [0; 1; 1; 0]%Z : Matrix Z 2 2) "> ").
Proof.
  apply (printMatrix_appends_rows (λ x : Z, if decide (x = 0%Z) then "0" else "x")
           (Matrix_init [0; 1; 1; 0]%Z : Matrix Z 2 2) "> " "m:").
  reflexivity.
Defined.

Lemma results_are_well_formed_witness :
  ∃ t, transpose (Matrix_init [1; 2; 3; 4; 5; 6]%Z : Matrix Z 3 2) = Some t ∧ wf t.
Proof.
  apply (proj1 (proj2 (proj2 (proj2 results_are_well_formed))) Z _ 3 2
           (Matrix_init [1; 2; 3; 4; 5; 6]%Z)).
  reflexivity.
Defined.

End swm.
